(** * Calldata encoding of [scripts/deploy_token.py]

    A shallow embedding of the three calldata functions of the deployment
    script, [encode_bytearray], [build_constructor_calldata] and the
    calldata prefix of [deploy_via_udc], together with the properties the
    specification states about them, and of the rest of the script,
    [deploy_via_udc], [verify_deployment], [get_contract_address_from_tx]
    and [main], over a trace of what the script prints, runs and writes.

    Python values are modelled as follows.
    - [str] is a finite sequence of code points; a code point is a number
      in [0, 0x10FFFF], lone surrogates included, as in CPython.
    - [bytes] is a list of [Byte.byte].
    - [int] is [Z]; lengths and indices, which are never negative, are [nat].
      [str(n)] is the decimal numeral of [n], and raises [ValueError] when
      the numeral has more digits than the interpreter allows for such a
      conversion.
    - A call that may raise returns an [exc] value. *)

From Stdlib Require Import String Ascii NArith ZArith PeanoNat List Lia Bool.
From Stdlib Require Import Strings.Byte Init.Decimal DecimalPos DecimalN.
Import ListNotations.

Set Implicit Arguments.

(** ** The Python fragment used by the script *)

Module Py.

Definition codepoint := N.

(** [str]: a sequence of code points. *)
Definition str := list codepoint.

(** [bytes]. *)
Definition bytes := list byte.

Inductive exn : Type :=
| UnicodeEncodeError
| ValueError.

(** The outcome of a call: a value or a raised exception. *)
Inductive exc (A : Type) : Type :=
| Return (a : A)
| Raise (e : exn).

Arguments Return {A} a.
Arguments Raise {A} e.

Definition bind {A B} (m : exc A) (k : A -> exc B) : exc B :=
  match m with
  | Return a => k a
  | Raise e => Raise e
  end.

(** A string literal of the source: its characters are ASCII. *)
Definition lit (s : string) : str :=
  map N_of_ascii (list_ascii_of_string s).

(** *** [str(n)] for an [int] *)

(** The characters of a decimal numeral. *)
Fixpoint digits (d : uint) : str :=
  match d with
  | Nil => []
  | D0 d => 48%N :: digits d
  | D1 d => 49%N :: digits d
  | D2 d => 50%N :: digits d
  | D3 d => 51%N :: digits d
  | D4 d => 52%N :: digits d
  | D5 d => 53%N :: digits d
  | D6 d => 54%N :: digits d
  | D7 d => 55%N :: digits d
  | D8 d => 56%N :: digits d
  | D9 d => 57%N :: digits d
  end.

(** The decimal numeral of an [int]: what [str(z)] returns when it
    returns. *)
Definition numeral (z : Z) : str :=
  match Z.to_int z with
  | Pos d => digits d
  | Neg d => 45%N :: digits d
  end.

(** [sys.get_int_max_str_digits()]: the interpreter's bound on the digits
    of a conversion between [int] and [str].  It is 4300 unless the
    interpreter is told otherwise, and the script leaves it alone. *)
Definition int_max_str_digits : N := 4300.

(** The digits of the numeral, the sign not counted. *)
Definition digit_count (z : Z) : N :=
  N.of_nat (length (numeral (Z.abs z))).

Definition exceeds_max_str_digits (z : Z) : bool :=
  (int_max_str_digits <? digit_count z)%N.

(** [str(z)], and [z] in an f-string, for an [int] of any size. *)
Definition str_of_int (z : Z) : exc str :=
  if exceeds_max_str_digits z then Raise ValueError else Return (numeral z).

(** *** [s.encode('utf-8')] *)

Definition byte_of_N (n : N) : byte :=
  match Byte.of_N n with
  | Some b => b
  | None => x00
  end.

(** A trailing byte of a multi-byte sequence: [10xxxxxx]. *)
Definition continuation (n : N) : byte :=
  byte_of_N (N.lor 0x80 (N.land n 0x3F)).

Definition is_surrogate (c : codepoint) : bool :=
  (0xD800 <=? c)%N && (c <=? 0xDFFF)%N.

(** One code point.  A surrogate is refused ("surrogates not allowed");
    a number above 0x10FFFF is no code point of a [str] and is refused
    as well. *)
Definition utf8_codepoint (c : codepoint) : exc bytes :=
  if (c <? 0x80)%N then
    Return [byte_of_N c]
  else if (c <? 0x800)%N then
    Return [byte_of_N (N.lor 0xC0 (N.shiftr c 6)); continuation c]
  else if is_surrogate c then
    Raise UnicodeEncodeError
  else if (c <? 0x10000)%N then
    Return [byte_of_N (N.lor 0xE0 (N.shiftr c 12));
            continuation (N.shiftr c 6); continuation c]
  else if (c <=? 0x10FFFF)%N then
    Return [byte_of_N (N.lor 0xF0 (N.shiftr c 18));
            continuation (N.shiftr c 12);
            continuation (N.shiftr c 6); continuation c]
  else
    Raise UnicodeEncodeError.

Fixpoint encode_utf8 (s : str) : exc bytes :=
  match s with
  | [] => Return []
  | c :: s' =>
      bind (utf8_codepoint c) (fun b =>
      bind (encode_utf8 s') (fun bs =>
      Return (b ++ bs)))
  end.

(** *** [b.hex()] *)

Definition hex_digit (d : N) : codepoint :=
  if (d <? 10)%N then (48 + d)%N else (87 + d)%N.

Definition byte_hex (b : byte) : str :=
  let n := Byte.to_N b in
  [hex_digit (n / 16); hex_digit (n mod 16)].

Definition hex (b : bytes) : str := flat_map byte_hex b.

(** *** Slices [l[lo:hi]] and [l[lo:]] for [0 <= lo <= hi] *)

Definition slice {A} (l : list A) (lo hi : nat) : list A :=
  firstn (hi - lo) (skipn lo l).

Definition slice_from {A} (l : list A) (lo : nat) : list A :=
  skipn lo l.

(** *** Truth value of an [Optional[str]]: [None] and [''] are false *)

Definition truthy (o : option str) : bool :=
  match o with
  | None => false
  | Some [] => false
  | Some (_ :: _) => true
  end.

End Py.

Import Py.

Declare Scope exc_scope.
Notation "x <- m ;; k" := (bind m (fun x => k))
  (at level 61, m at next level, right associativity) : exc_scope.
Open Scope exc_scope.

(** ** The script *)

(** [DeploymentConfig] *)
Record DeploymentConfig : Type := {
  name : str;
  symbol : str;
  base_uri : str;
  royalty_receiver : str;
  royalty_fraction : Z;
  game_registry_address : option str;
  event_relayer_address : option str;
  class_hash : str;
  udc_address : str;
  profile : str;
  salt : Z;
  unique : bool
}.

(** [encode_bytearray]: the loop over [range(num_full_words)] is a left
    fold that appends one word per index.  The two numbers it converts
    with [str] are lengths: a length is below 2^63, its numeral has at
    most 19 digits, and the conversion returns it. *)
Definition encode_bytearray (s : str) : exc (list str) :=
  s_bytes <- encode_utf8 s ;;
  let num_full_words := length s_bytes / 31 in
  let pending_len := length s_bytes mod 31 in
  let result := [numeral (Z.of_nat num_full_words)] in
  let result :=
    fold_left
      (fun result i =>
         let word_bytes := slice s_bytes (i * 31) ((i + 1) * 31) in
         let word_hex := lit "0x" ++ hex word_bytes in
         result ++ [word_hex])
      (seq 0 num_full_words) result in
  if 0 <? pending_len then
    let pending_bytes := slice_from s_bytes (num_full_words * 31) in
    let pending_hex := lit "0x" ++ hex pending_bytes in
    let result := result ++ [pending_hex] in
    let result := result ++ [numeral (Z.of_nat pending_len)] in
    Return result
  else
    let result := result ++ [lit "0"] in
    let result := result ++ [lit "0"] in
    Return result.

(** [build_constructor_calldata] *)
Definition build_constructor_calldata (config : DeploymentConfig)
  : exc (nat * list str) :=
  let calldata := [] in
  name_encoded <- encode_bytearray (name config) ;;
  symbol_encoded <- encode_bytearray (symbol config) ;;
  base_uri_encoded <- encode_bytearray (base_uri config) ;;
  let calldata := calldata ++ name_encoded in
  let calldata := calldata ++ symbol_encoded in
  let calldata := calldata ++ base_uri_encoded in
  let calldata := calldata ++ [royalty_receiver config] in
  fraction <- str_of_int (royalty_fraction config) ;;
  let calldata := calldata ++ [fraction] in
  let calldata :=
    match game_registry_address config with
    | Some a =>
        if truthy (Some a)
        then (calldata ++ [lit "0"]) ++ [a]
        else calldata ++ [lit "1"]
    | None => calldata ++ [lit "1"]
    end in
  let calldata :=
    match event_relayer_address config with
    | Some a =>
        if truthy (Some a)
        then (calldata ++ [lit "0"]) ++ [a]
        else calldata ++ [lit "1"]
    | None => calldata ++ [lit "1"]
    end in
  Return (length calldata, calldata).

(** The first statements of [deploy_via_udc]: the calldata of the
    dispatcher's [deployContract], before the command is built.
    [calldata_len] is a length. *)
Definition udc_calldata (config : DeploymentConfig) : exc (list str) :=
  r <- build_constructor_calldata config ;;
  let '(calldata_len, constructor_calldata) := r in
  salt_word <- str_of_int (salt config) ;;
  let udc_calldata :=
    [ class_hash config;
      salt_word;
      if unique config then lit "1" else lit "0";
      numeral (Z.of_nat calldata_len) ] in
  let udc_calldata := udc_calldata ++ constructor_calldata in
  Return udc_calldata.

(** ** The same functions over a store of list objects

    In the script [result] and [calldata] are list objects that are
    allocated once and then mutated by [append] and [extend].  Here the
    objects live in a store addressed by references; every operation
    threads the store, and an exception leaves the store as it was when it
    was raised. *)

Module Heap.

Definition ref := nat.

(** The list objects alive, by address. *)
Definition heap := list (list str).

Definition M (A : Type) : Type := heap -> exc A * heap.

Definition ret {A} (a : A) : M A := fun h => (Return a, h).

Definition bind {A B} (m : M A) (k : A -> M B) : M B :=
  fun h =>
    match m h with
    | (Return a, h') => k a h'
    | (Raise e, h') => (Raise e, h')
    end.

(** A call of a function that touches no object. *)
Definition lift {A} (m : exc A) : M A := fun h => (m, h).

Fixpoint update {A} (n : nat) (f : A -> A) (l : list A) : list A :=
  match l, n with
  | [], _ => []
  | x :: l', 0 => f x :: l'
  | x :: l', S n' => x :: update n' f l'
  end.

(** [[x, ...]]: a new list object. *)
Definition new_list (init : list str) : M ref :=
  fun h => (Return (length h), h ++ [init]).

Definition contents (r : ref) (h : heap) : list str := nth r h [].

(** [r.append(x)] *)
Definition append (r : ref) (x : str) : M unit :=
  fun h => (Return tt, update r (fun l => l ++ [x]) h).

(** [r.extend(r')] *)
Definition extend (r r' : ref) : M unit :=
  fun h => (Return tt, update r (fun l => l ++ contents r' h) h).

(** [len(r)] *)
Definition len (r : ref) : M nat :=
  fun h => (Return (length (contents r h)), h).

(** [for i in l: body(i)] *)
Fixpoint for_each {A} (l : list A) (body : A -> M unit) : M unit :=
  match l with
  | [] => ret tt
  | i :: l' => bind (body i) (fun _ => for_each l' body)
  end.

Declare Scope heap_scope.
Notation "x <- m ;; k" := (bind m (fun x => k))
  (at level 61, m at next level, right associativity) : heap_scope.
Notation "m ;; k" := (bind m (fun _ => k))
  (at level 61, right associativity) : heap_scope.
Local Open Scope heap_scope.

Definition encode_bytearray (s : str) : M ref :=
  s_bytes <- lift (encode_utf8 s) ;;
  let num_full_words := length s_bytes / 31 in
  let pending_len := length s_bytes mod 31 in
  result <- new_list [numeral (Z.of_nat num_full_words)] ;;
  for_each (seq 0 num_full_words)
    (fun i =>
       let word_bytes := slice s_bytes (i * 31) ((i + 1) * 31) in
       let word_hex := lit "0x" ++ hex word_bytes in
       append result word_hex) ;;
  (if 0 <? pending_len then
     let pending_bytes := slice_from s_bytes (num_full_words * 31) in
     let pending_hex := lit "0x" ++ hex pending_bytes in
     append result pending_hex ;;
     append result (numeral (Z.of_nat pending_len))
   else
     append result (lit "0") ;;
     append result (lit "0")) ;;
  ret result.

Definition append_optional (calldata : ref) (o : option str) : M unit :=
  match o with
  | Some a =>
      if truthy (Some a)
      then append calldata (lit "0") ;; append calldata a
      else append calldata (lit "1")
  | None => append calldata (lit "1")
  end.

Definition build_constructor_calldata (config : DeploymentConfig)
  : M (nat * ref) :=
  calldata <- new_list [] ;;
  name_encoded <- encode_bytearray (name config) ;;
  symbol_encoded <- encode_bytearray (symbol config) ;;
  base_uri_encoded <- encode_bytearray (base_uri config) ;;
  extend calldata name_encoded ;;
  extend calldata symbol_encoded ;;
  extend calldata base_uri_encoded ;;
  append calldata (royalty_receiver config) ;;
  fraction <- lift (str_of_int (royalty_fraction config)) ;;
  append calldata fraction ;;
  append_optional calldata (game_registry_address config) ;;
  append_optional calldata (event_relayer_address config) ;;
  n <- len calldata ;;
  ret (n, calldata).




End Heap.

(** ** Reading the words back

    The script only writes words.  The specification describes how they
    are read: a token that starts with [0x] is a hexadecimal numeral, any
    other token a decimal one, and a word of [n] bytes is the big-endian
    value of those bytes. *)

Module Spec.

(** [int.from_bytes(b, 'big')] *)
Definition be_value (b : bytes) : N :=
  fold_left (fun acc x => (acc * 256 + Byte.to_N x)%N) b 0%N.

Fixpoint to_le_bytes (n : nat) (v : N) : bytes :=
  match n with
  | 0 => []
  | S n' => byte_of_N (v mod 256) :: to_le_bytes n' (v / 256)
  end.

(** [v.to_bytes(n, 'big')] *)
Definition to_be_bytes (n : nat) (v : N) : bytes :=
  List.rev (to_le_bytes n v).

Definition hex_val (c : codepoint) : option N :=
  if (48 <=? c)%N && (c <=? 57)%N then Some (c - 48)%N
  else if (97 <=? c)%N && (c <=? 102)%N then Some (c - 87)%N
  else if (65 <=? c)%N && (c <=? 70)%N then Some (c - 55)%N
  else None.

Fixpoint parse_hex_acc (acc : N) (s : str) : option N :=
  match s with
  | [] => Some acc
  | c :: s' =>
      match hex_val c with
      | Some d => parse_hex_acc (acc * 16 + d) s'
      | None => None
      end
  end.

Definition parse_hex (s : str) : option N :=
  match s with
  | [] => None
  | _ => parse_hex_acc 0 s
  end.

Definition digit_of (c : codepoint) : option (uint -> uint) :=
  match c with
  | 48%N => Some D0
  | 49%N => Some D1
  | 50%N => Some D2
  | 51%N => Some D3
  | 52%N => Some D4
  | 53%N => Some D5
  | 54%N => Some D6
  | 55%N => Some D7
  | 56%N => Some D8
  | 57%N => Some D9
  | _ => None
  end.

Fixpoint uint_of_digits (s : str) : option uint :=
  match s with
  | [] => Some Nil
  | c :: s' =>
      match digit_of c, uint_of_digits s' with
      | Some f, Some d => Some (f d)
      | _, _ => None
      end
  end.

Definition parse_dec (s : str) : option N :=
  match s with
  | [] => None
  | _ => option_map N.of_uint (uint_of_digits s)
  end.

(** The value of a word token. *)
Definition word_value (w : str) : option N :=
  match w with
  | 48%N :: 120%N :: ds => parse_hex ds
  | _ => parse_dec w
  end.

Fixpoint values (ws : list str) : option (list N) :=
  match ws with
  | [] => Some []
  | w :: ws' =>
      match word_value w, values ws' with
      | Some v, Some vs => Some (v :: vs)
      | _, _ => None
      end
  end.

(** The decoder of the specification: the first word is
    [full_word_count]; each of the next [full_word_count] words gives 31
    big-endian bytes; the last two words are the pending word and
    [pending_length], and give [pending_length] big-endian bytes. *)
Definition decode (ws : list str) : option bytes :=
  match ws with
  | [] => None
  | count :: rest =>
      match word_value count with
      | None => None
      | Some full_word_count =>
          let k := N.to_nat full_word_count in
          match values (firstn k rest), skipn k rest with
          | Some full_words, [pending_word; pending_length] =>
              match word_value pending_word, word_value pending_length with
              | Some p, Some n =>
                  Some (concat (map (to_be_bytes 31) full_words)
                          ++ to_be_bytes (N.to_nat n) p)
              | _, _ => None
              end
          | _, _ => None
          end
      end
  end.

(** The serialisation of an optional address as the specification words
    it: present is [0] and the address, absent is [1]. *)
Definition encode_optional (o : option str) : list str :=
  match o with
  | Some a => [lit "0"; a]
  | None => [lit "1"]
  end.

(** The constructor calldata as the specification words it, with
    [encode_optional] for both optional fields. *)
Definition constructor_calldata (config : DeploymentConfig)
  : exc (list str) :=
  name_words <- encode_bytearray (name config) ;;
  symbol_words <- encode_bytearray (symbol config) ;;
  base_uri_words <- encode_bytearray (base_uri config) ;;
  Return (name_words ++ symbol_words ++ base_uri_words
            ++ [royalty_receiver config]
            ++ [numeral (royalty_fraction config)]
            ++ encode_optional (game_registry_address config)
            ++ encode_optional (event_relayer_address config)).

End Spec.

Import Spec.

(** The serialisation of an optional address as the script does it. *)
Definition optional_words (o : option str) : list str :=
  if truthy o then
    match o with
    | Some a => [lit "0"; a]
    | None => []
    end
  else [lit "1"].

(** The words of the constructor calldata, given the words of the three
    encoded texts. *)
Definition calldata_words (config : DeploymentConfig)
    (name_words symbol_words base_uri_words : list str) : list str :=
  name_words ++ symbol_words ++ base_uri_words
    ++ [royalty_receiver config]
    ++ [numeral (royalty_fraction config)]
    ++ optional_words (game_registry_address config)
    ++ optional_words (event_relayer_address config).

(** A text the [utf-8] codec accepts: Unicode scalar values only. *)
Definition scalar (c : codepoint) : Prop :=
  (c <= 0x10FFFF)%N /\ is_surrogate c = false.

Definition encodable (s : str) : Prop := Forall scalar s.

(** The words [encode_bytearray] emits after the count, as functions of
    the encoded bytes. *)
Definition chunk (b : bytes) (i : nat) : bytes :=
  slice b (i * 31) ((i + 1) * 31).

Definition full_word (b : bytes) (i : nat) : str :=
  lit "0x" ++ hex (chunk b i).

Definition full_words (b : bytes) : list str :=
  map (full_word b) (seq 0 (length b / 31)).

Definition pending_words (b : bytes) : list str :=
  if 0 <? length b mod 31
  then [lit "0x" ++ hex (slice_from b (length b / 31 * 31));
        numeral (Z.of_nat (length b mod 31))]
  else [lit "0"; lit "0"].

Definition serialized (b : bytes) : list str :=
  numeral (Z.of_nat (length b / 31)) :: full_words b ++ pending_words b.

(** ** Sample inputs *)

Definition hello : str := lit "hello".

(** 31 bytes: one full word, nothing pending. *)
Definition text31 : str := repeat 97%N 31.

(** 34 bytes; the three bytes of the euro sign straddle the first word
    boundary. *)
Definition text_euro : str := repeat 97%N 30 ++ [0x20AC%N; 98%N].

(** 62 bytes: two full words. *)
Definition text62 : str := repeat 97%N 62.

(** What [os.fsdecode] makes of the byte [0xff] in a command-line
    argument: a lone surrogate. *)
Definition lone_surrogate : str := [0xDCFF%N].

(** The configuration [main] builds when no option is given. *)
Definition default_config : DeploymentConfig := {|
  name := lit "ProvableGameToken";
  symbol := lit "PGT";
  base_uri := lit "https://api.provable.games/token/";
  royalty_receiver :=
    lit "0x127fd5f1fe78a71f8bcd1fec63e3fe2f0486b6ecd5c86a0466c3a21fa5cfcec";
  royalty_fraction := 500;
  game_registry_address :=
    Some (lit "0x00348dafbd271cc82bfc57e3edd3a7b3163008f53c586e31d822862b72e1a663");
  event_relayer_address := None;
  class_hash :=
    lit "0x075137b5c45312610d7cb6d43982e5fd5bd0df6c0b1e51518ced64a91f125e85";
  udc_address :=
    lit "0x041a78e741e5af2fec34b695679bc6891742439f7afb8484ecd7766661ad02bf";
  profile := lit "default";
  salt := 0;
  unique := true
|}.

Definition with_texts (n s u : str) (c : DeploymentConfig) : DeploymentConfig :=
  {| name := n; symbol := s; base_uri := u;
     royalty_receiver := royalty_receiver c;
     royalty_fraction := royalty_fraction c;
     game_registry_address := game_registry_address c;
     event_relayer_address := event_relayer_address c;
     class_hash := class_hash c; udc_address := udc_address c;
     profile := profile c; salt := salt c; unique := unique c |}.

Definition with_optionals (g e : option str) (c : DeploymentConfig)
  : DeploymentConfig :=
  {| name := name c; symbol := symbol c; base_uri := base_uri c;
     royalty_receiver := royalty_receiver c;
     royalty_fraction := royalty_fraction c;
     game_registry_address := g;
     event_relayer_address := e;
     class_hash := class_hash c; udc_address := udc_address c;
     profile := profile c; salt := salt c; unique := unique c |}.

Definition with_numbers (fraction salt_number : Z) (c : DeploymentConfig)
  : DeploymentConfig :=
  {| name := name c; symbol := symbol c; base_uri := base_uri c;
     royalty_receiver := royalty_receiver c;
     royalty_fraction := fraction;
     game_registry_address := game_registry_address c;
     event_relayer_address := event_relayer_address c;
     class_hash := class_hash c; udc_address := udc_address c;
     profile := profile c; salt := salt_number; unique := unique c |}.

(** The least number whose numeral has 4301 digits. *)
Definition too_long : Z := 10 ^ 4300.

(** The calldata of [default_config]. *)
Definition default_calldata_words : list str :=
  [lit "0"; lit "0x50726f7661626c6547616d65546f6b656e"; lit "17";
   lit "0"; lit "0x504754"; lit "3";
   lit "1";
   lit "0x68747470733a2f2f6170692e70726f7661626c652e67616d65732f746f6b65";
   lit "0x6e2f"; lit "2";
   lit "0x127fd5f1fe78a71f8bcd1fec63e3fe2f0486b6ecd5c86a0466c3a21fa5cfcec";
   lit "500";
   lit "0";
   lit "0x00348dafbd271cc82bfc57e3edd3a7b3163008f53c586e31d822862b72e1a663";
   lit "1"].

(** Texts of 0, 30, 31, 32 and 62 bytes, and the four states of the two
    optional addresses. *)
Definition boundary_texts : list str :=
  map (repeat 97%N) [0; 30; 31; 32; 62].

Definition optional_states : list (option str * option str) :=
  [(None, None); (Some (lit "0xa1"), None);
   (None, Some (lit "0xb2")); (Some (lit "0xa1"), Some (lit "0xb2"))].

Definition boundary_configs : list DeploymentConfig :=
  flat_map (fun t =>
    map (fun o => with_texts t t t (with_optionals (fst o) (snd o) default_config))
        optional_states)
    boundary_texts.

Definition count_is_length (config : DeploymentConfig) : bool :=
  match build_constructor_calldata config with
  | Return (n, ws) => n =? length ws
  | Raise _ => false
  end.

Definition mixed_config : DeploymentConfig :=
  with_texts [] text31 text62
    (with_optionals None (Some (lit "0xb2")) default_config).

(** [main] passes [--event-relayer ''] on as the empty string. *)
Definition empty_relayer_config : DeploymentConfig :=
  with_optionals (game_registry_address default_config) (Some [])
    default_config.

(** Every code point of a [str] is at most 0x10FFFF. *)
Definition well_typed_str (s : str) : Prop :=
  Forall (fun c => (c <= 0x10FFFF)%N) s.

From Stdlib Require Import DecimalZ.

(** ** More on the words

    [effective o] is the optional address the calldata carries: an empty
    address counts as none. *)
Definition effective (o : option str) : option str :=
  if truthy o then o else None.

(** One more word when the optional address is carried. *)
Definition optional_size (o : option str) : nat :=
  if truthy o then 2 else 1.

(** The characters of the words [encode_bytearray] writes: decimal
    digits, [a] to [f], and [x]. *)
Definition word_char (c : codepoint) : bool :=
  ((48 <=? c)%N && (c <=? 57)%N) || ((97 <=? c)%N && (c <=? 102)%N)
  || (c =? 120)%N.

(** Reads one serialised byte array off the front of a word list and
    returns what follows it. *)
Definition decode_prefix (ws : list str) : option (bytes * list str) :=
  match ws with
  | [] => None
  | count :: rest =>
      match word_value count with
      | None => None
      | Some full_word_count =>
          let k := N.to_nat full_word_count in
          match values (firstn k rest), skipn k rest with
          | Some full_words, pending_word :: pending_length :: tail =>
              match word_value pending_word, word_value pending_length with
              | Some p, Some n =>
                  Some (concat (map (to_be_bytes 31) full_words)
                          ++ to_be_bytes (N.to_nat n) p, tail)
              | _, _ => None
              end
          | _, _ => None
          end
      end
  end.

(** The byte values of the UTF-8 form of a code point, by arithmetic. *)
Definition utf8_values (c : codepoint) : list N :=
  if (c <? 0x80)%N then [c]
  else if (c <? 0x800)%N then [192 + c / 64; 128 + c mod 64]%N
  else if (c <? 0x10000)%N then
    [224 + c / 4096; 128 + (c / 64) mod 64; 128 + c mod 64]%N
  else
    [240 + c / 262144; 128 + (c / 4096) mod 64;
     128 + (c / 64) mod 64; 128 + c mod 64]%N.

(** The number of bytes of a UTF-8 sequence, read off its first byte. *)
Definition lead_length (h : N) : nat :=
  if (h <? 128)%N then 1
  else if (h <? 224)%N then 2
  else if (h <? 240)%N then 3
  else 4.

(** The code point of the byte values of one UTF-8 sequence. *)
Definition value_of (vs : list N) : N :=
  match vs with
  | [a] => a
  | [a; b] => (a - 192) * 64 + (b - 128)
  | [a; b; c] => (a - 224) * 4096 + (b - 128) * 64 + (c - 128)
  | [a; b; c; d] =>
      (a - 240) * 262144 + (b - 128) * 4096 + (c - 128) * 64 + (d - 128)
  | _ => 0
  end%N.

(** ** More of the Python fragment: text search, splitting, stripping *)

Fixpoint is_prefix (p s : str) : bool :=
  match p, s with
  | [], _ => true
  | _ :: _, [] => false
  | a :: p', b :: s' => (a =? b)%N && is_prefix p' s'
  end.

(** [sub in s] *)
Fixpoint contains (sub s : str) : bool :=
  is_prefix sub s ||
  match s with
  | [] => false
  | _ :: s' => contains sub s'
  end.

(** [s.split(sep)] for a separator that is not empty: the occurrences of
    [sep] are taken from the left and do not overlap.  [cur] holds the
    current piece, reversed; [skip] counts the characters of a separator
    still to pass. *)
Fixpoint split_go (sep : str) (skip : nat) (cur s : str) : list str :=
  match s with
  | [] => [List.rev cur]
  | c :: s' =>
      match skip with
      | S k => split_go sep k cur s'
      | 0 =>
          if is_prefix sep s
          then List.rev cur :: split_go sep (length sep - 1) [] s'
          else split_go sep 0 (c :: cur) s'
      end
  end.

Definition split (sep s : str) : list str := split_go sep 0 [] s.

(** [c.isspace()] *)
Definition is_space (c : codepoint) : bool :=
  ((0x09 <=? c)%N && (c <=? 0x0D)%N) ||
  ((0x1C <=? c)%N && (c <=? 0x20)%N) ||
  (c =? 0x85)%N || (c =? 0xA0)%N || (c =? 0x1680)%N ||
  ((0x2000 <=? c)%N && (c <=? 0x200A)%N) ||
  (c =? 0x2028)%N || (c =? 0x2029)%N || (c =? 0x202F)%N ||
  (c =? 0x205F)%N || (c =? 0x3000)%N.

Fixpoint lstrip (s : str) : str :=
  match s with
  | [] => []
  | c :: s' => if is_space c then lstrip s' else s
  end.

Definition rstrip (s : str) : str := List.rev (lstrip (List.rev s)).

(** [s.strip()] *)
Definition strip (s : str) : str := rstrip (lstrip s).

(** The line feed. *)
Definition nl : str := [10%N].

(** [str(b)] for a [bool] *)
Definition str_of_bool (b : bool) : str :=
  if b then lit "True" else lit "False".

(** Truth value of a [str]: [''] is false. *)
Definition nonempty (s : str) : bool :=
  match s with
  | [] => false
  | _ :: _ => true
  end.

Fixpoint str_eqb (a b : str) : bool :=
  match a, b with
  | [], [] => true
  | x :: a', y :: b' => (x =? y)%N && str_eqb a' b'
  | _, _ => false
  end.

(** ** Processes, output and exceptions

    The script prints, runs [sncast] and [starkli], reads what they
    print, and writes one file.  A run of the script is modelled over a
    trace of what it has done so far; what a process or the file system
    answers is given from outside.  Printing is taken to succeed on every
    text. *)

(** [EncodeError e]: the exception [e] of a conversion, [str.encode] or
    [str] of an [int], as it leaves the function that made it. *)
Inductive error : Type :=
| EncodeError (e : exn)
| CalledProcessError (stderr message : str)
| FileNotFoundError
| JSONDecodeError
| TypeError
| KeyError
| IndexError
| SystemExit (code : Z)
| OtherError (class_name : str).

(** [subprocess.run(argv, capture_output=True, text=True, check=True,
    cwd=..., env=...)]; [env] lists the variables set on top of the
    environment of the script. *)
Record command : Type := {
  argv : list str;
  cwd : option str;
  env : list (str * str)
}.

(** [subprocess.CompletedProcess] *)
Record completed : Type := {
  stdout : str;
  stderr : str
}.

(** An event records a call the script has made, whatever came of the
    call: [print(line)], [subprocess.run] on a command (a list of [str]),
    [open(path, 'w')], [f.write(chunk)] on the file opened at [path], and
    the closing of that file. *)
Inductive event : Type :=
| Printed (line : str)
| Ran (c : command)
| Opened (path : str)
| Wrote (path : str) (chunk : str)
| Closed (path : str).

Definition trace := list event.

Inductive outcome (A : Type) : Type :=
| Val (a : A)
| Exn (e : error).

Arguments Val {A} a.
Arguments Exn {A} e.

Definition IO (A : Type) : Type := trace -> outcome A * trace.

Definition io_ret {A} (a : A) : IO A := fun t => (Val a, t).

Definition io_raise {A} (e : error) : IO A := fun t => (Exn e, t).

Definition io_bind {A B} (m : IO A) (k : A -> IO B) : IO B :=
  fun t =>
    match m t with
    | (Val a, t') => k a t'
    | (Exn e, t') => (Exn e, t')
    end.

(** A call of one of the calldata functions. *)
Definition of_exc {A} (m : exc A) : IO A :=
  fun t =>
    match m with
    | Return a => (Val a, t)
    | Raise e => (Exn (EncodeError e), t)
    end.

(** A call that neither prints nor runs anything. *)
Definition of_outcome {A} (m : outcome A) : IO A := fun t => (m, t).

(** The outcome of a conversion. *)
Definition raised {A} (m : exc A) : outcome A :=
  match m with
  | Return a => Val a
  | Raise e => Exn (EncodeError e)
  end.

(** [print(line)] *)
Definition print (line : str) : IO unit :=
  fun t => (Val tt, t ++ [Printed line]).

(** [try: body  except subprocess.CalledProcessError as e: handler] *)
Definition except_called_process_error {A}
    (body : IO A) (handler : str -> str -> IO A) : IO A :=
  fun t =>
    match body t with
    | (Exn (CalledProcessError e_stderr e_str), t') => handler e_stderr e_str t'
    | r => r
    end.

Declare Scope io_scope.
Delimit Scope io_scope with io.
Notation "x <- m ;; k" := (io_bind m (fun x => k))
  (at level 61, m at next level, right associativity) : io_scope.
Notation "m ;; k" := (io_bind m (fun _ => k))
  (at level 61, right associativity) : io_scope.

(** The label [deploy_via_udc] looks for in the output of [sncast]. *)
Definition hash_label : str := lit "Transaction Hash:".

(** The loop of [deploy_via_udc] over the lines of the output; it leaves
    at the first line that has the label. *)
Fixpoint find_transaction_hash (lines : list str) : outcome (option str) :=
  match lines with
  | [] => Val None
  | line :: rest =>
      if contains hash_label line then
        match nth_error (split hash_label line) 1 with
        | Some piece => Val (Some (strip piece))
        | None => Exn IndexError
        end
      else find_transaction_hash rest
  end.

(** The working directory of the [sncast] calls. *)
Definition token_package : str :=
  lit "/workspace/game-components/packages/token".

Section Processes.

(** What [subprocess.run] gives for a command, after what has been done
    so far. *)
Variable subprocess_run : trace -> command -> outcome completed.

Definition run (c : command) : IO completed :=
  fun t => (subprocess_run t c, t ++ [Ran c]).

Local Open Scope io_scope.

(** [deploy_via_udc]; [calldata_len] is a length. *)
Definition deploy_via_udc (config : DeploymentConfig)
  : IO (bool * str * str) :=
  r <- of_exc (build_constructor_calldata config) ;;
  let '(calldata_len, constructor_calldata) := r in
  salt_word <- of_exc (str_of_int (salt config)) ;;
  let udc_calldata :=
    [ class_hash config;
      salt_word;
      if unique config then lit "1" else lit "0";
      numeral (Z.of_nat calldata_len) ] in
  let udc_calldata := udc_calldata ++ constructor_calldata in
  let cmd :=
    [ lit "sncast";
      lit "--profile"; profile config;
      lit "invoke";
      lit "--contract-address"; udc_address config;
      lit "--function"; lit "deployContract";
      lit "--calldata" ] in
  let cmd := cmd ++ udc_calldata in
  print (lit "Deploying contract...") ;;
  print (lit "  Class Hash: " ++ class_hash config) ;;
  print (lit "  Constructor Args: " ++ numeral (Z.of_nat calldata_len)
           ++ lit " parameters") ;;
  print (lit "  UDC Address: " ++ udc_address config) ;;
  salt_text <- of_exc (str_of_int (salt config)) ;;
  print (lit "  Salt: " ++ salt_text) ;;
  print (lit "  Unique: " ++ str_of_bool (unique config)) ;;
  print [] ;;
  except_called_process_error
    (result <- run {| argv := cmd; cwd := Some token_package; env := [] |} ;;
     let output := stdout result in
     print output ;;
     found <- of_outcome (find_transaction_hash (split nl output)) ;;
     match found with
     | Some tx_hash => io_ret (true, tx_hash, [])
     | None =>
         print (nl ++ lit "--- Full sncast stdout ---") ;;
         print output ;;
         print (lit "--- End sncast stdout ---") ;;
         print (nl ++ lit "--- Full sncast stderr ---") ;;
         print (stderr result) ;;
         print (lit "--- End sncast stderr ---") ;;
         io_ret (false, [], lit "Could not find transaction hash in output")
     end)
    (fun e_stderr e_str =>
       let error_msg := if nonempty e_stderr then e_stderr else e_str in
       io_ret (false, [], error_msg)).

(** [verify_deployment] *)
Definition verify_deployment (contract_address profile expected_name : str)
  : IO bool :=
  print (nl ++ lit "Verifying deployment...") ;;
  print (lit "  Contract Address: " ++ contract_address) ;;
  print (lit "  Expected Name: " ++ expected_name) ;;
  let cmd :=
    [ lit "sncast";
      lit "--profile"; profile;
      lit "call";
      lit "--contract-address"; contract_address;
      lit "--function"; lit "name" ] in
  except_called_process_error
    (result <- run {| argv := cmd; cwd := Some token_package; env := [] |} ;;
     let output := stdout result in
     print output ;;
     if contains expected_name output then
       print ([0x2705%N] ++ lit " Verification successful!") ;;
       io_ret true
     else
       print ([0x26A0%N; 0xFE0F%N] ++ lit "  Warning: Name mismatch in verification") ;;
       io_ret false)
    (fun e_stderr _ =>
       print ([0x26A0%N; 0xFE0F%N] ++ lit "  Verification failed: " ++ e_stderr) ;;
       io_ret false).

End Processes.

(** ** The receipt

    What [json.loads] returns: [None], a [bool], an [int], a [float], a
    [str], a [list] or a [dict] with [str] keys.  Of a [float] only
    whether it is zero matters below. *)

#[local] Set Warnings "-register-all".

Inductive value : Type :=
| VNone
| VBool (b : bool)
| VInt (z : Z)
| VFloat (is_zero : bool)
| VStr (s : str)
| VList (items : list value)
| VDict (entries : list (str * value)).

Fixpoint lookup (key : str) (entries : list (str * value)) : option value :=
  match entries with
  | [] => None
  | (k, v) :: rest => if str_eqb k key then Some v else lookup key rest
  end.

Definition is_str (key : str) (v : value) : bool :=
  match v with
  | VStr s => str_eqb s key
  | _ => false
  end.

(** [key in obj] for a [str] key *)
Definition py_in (key : str) (obj : value) : outcome bool :=
  match obj with
  | VDict entries =>
      Val (match lookup key entries with Some _ => true | None => false end)
  | VList items => Val (existsb (is_str key) items)
  | VStr s => Val (contains key s)
  | VNone | VBool _ | VInt _ | VFloat _ => Exn TypeError
  end.

(** [obj[key]] for a [str] key *)
Definition getitem_key (obj : value) (key : str) : outcome value :=
  match obj with
  | VDict entries =>
      match lookup key entries with
      | Some v => Val v
      | None => Exn KeyError
      end
  | _ => Exn TypeError
  end.

(** [obj[0]]; a [dict] read from JSON has no key [0]. *)
Definition getitem_0 (obj : value) : outcome value :=
  match obj with
  | VList (v :: _) => Val v
  | VList [] => Exn IndexError
  | VStr (c :: _) => Val (VStr [c])
  | VStr [] => Exn IndexError
  | VDict _ => Exn KeyError
  | VNone | VBool _ | VInt _ | VFloat _ => Exn TypeError
  end.

(** [len(obj)] *)
Definition py_len (obj : value) : outcome nat :=
  match obj with
  | VList items => Val (length items)
  | VStr s => Val (length s)
  | VDict entries => Val (length entries)
  | VNone | VBool _ | VInt _ | VFloat _ => Exn TypeError
  end.

Definition outcome_bind {A B} (m : outcome A) (k : A -> outcome B)
  : outcome B :=
  match m with
  | Val a => k a
  | Exn e => Exn e
  end.

Declare Scope outcome_scope.
Delimit Scope outcome_scope with outcome.
Notation "x <- m ;; k" := (outcome_bind m (fun x => k))
  (at level 61, m at next level, right associativity) : outcome_scope.

(** [key in obj and len(obj[key]) > 0] *)
Definition has_nonempty (key : str) (obj : value) : outcome bool :=
  (present <- py_in key obj ;;
   if present then
     (item <- getitem_key obj key ;;
      n <- py_len item ;;
      Val (0 <? n))
   else Val false)%outcome.

(** The statements of [get_contract_address_from_tx] between
    [json.loads] and the [except] clause. *)
Definition receipt_address (receipt : value) : outcome (option value) :=
  (events_found <- has_nonempty (lit "events") receipt ;;
   if events_found then
     (events <- getitem_key receipt (lit "events") ;;
      udc_event <- getitem_0 events ;;
      data_found <- has_nonempty (lit "data") udc_event ;;
      if data_found then
        (data <- getitem_key udc_event (lit "data") ;;
         contract_address <- getitem_0 data ;;
         Val (Some contract_address))
      else Val None)
   else Val None)%outcome.

Definition starkli_paths : list str :=
  [lit "/home/ubuntu/.starkli/bin/starkli"; lit "starkli"].

Definition starknet_rpc : str * str :=
  (lit "STARKNET_RPC", lit "https://api.cartridge.gg/x/provable-dw/katana").

(** The exceptions the loop of [get_contract_address_from_tx] catches. *)
Definition caught (e : error) : bool :=
  match e with
  | CalledProcessError _ _ | FileNotFoundError | JSONDecodeError => true
  | _ => false
  end.

Section Receipts.

Variable subprocess_run : trace -> command -> outcome completed.

(** [json.loads] *)
Variable json_loads : str -> outcome value.

Local Open Scope io_scope.

(** The body of the [try] for one path. *)
Definition fetch_receipt (starkli_path tx_hash : str) : IO (option value) :=
  let cmd := [starkli_path; lit "transaction-receipt"; tx_hash] in
  result <- run subprocess_run
              {| argv := cmd; cwd := None; env := [starknet_rpc] |} ;;
  receipt <- of_outcome (json_loads (stdout result)) ;;
  of_outcome (receipt_address receipt).

(** The loop over the paths, and what follows it. *)
Fixpoint try_paths (paths : list str) (tx_hash : str) : IO (option value) :=
  match paths with
  | starkli_path :: rest =>
      fun t =>
        match fetch_receipt starkli_path tx_hash t with
        | (Exn e, t') =>
            if caught e then try_paths rest tx_hash t' else (Exn e, t')
        | r => r
        end
  | [] =>
      print ([0x26A0%N; 0xFE0F%N]
               ++ lit "  Could not automatically extract contract address") ;;
      print (nl ++ lit "To get the contract address, run:") ;;
      print (lit "  export STARKNET_RPC=https://api.cartridge.gg/x/provable-dw/katana") ;;
      print (lit "  starkli transaction-receipt " ++ tx_hash) ;;
      print (nl ++ lit "The contract address is in events[0].data[0]") ;;
      io_ret None
  end.

(** [get_contract_address_from_tx] *)
Definition get_contract_address_from_tx (tx_hash profile : str)
  : IO (option value) :=
  print (nl ++ lit "Fetching transaction receipt...") ;;
  try_paths starkli_paths tx_hash.

End Receipts.

(** ** The arguments of [main] *)

(** The [Namespace] that [parse_args] returns. *)
Record Namespace : Type := {
  args_name : str;
  args_symbol : str;
  args_base_uri : str;
  args_royalty_receiver : str;
  args_royalty_fraction : Z;
  args_game_registry : str;
  args_event_relayer : option str;
  args_class_hash : str;
  args_udc_address : str;
  args_profile : str;
  args_salt : Z;
  args_no_unique : bool;
  args_no_verify : bool
}.

(** The [DeploymentConfig] that [main] builds from the arguments. *)
Definition config_of_args (args : Namespace) : DeploymentConfig := {|
  name := args_name args;
  symbol := args_symbol args;
  base_uri := args_base_uri args;
  royalty_receiver := args_royalty_receiver args;
  royalty_fraction := args_royalty_fraction args;
  game_registry_address :=
    if nonempty (args_game_registry args)
    then Some (args_game_registry args)
    else None;
  event_relayer_address := args_event_relayer args;
  class_hash := args_class_hash args;
  udc_address := args_udc_address args;
  profile := args_profile args;
  salt := args_salt args;
  unique := negb (args_no_unique args)
|}.

(** ** [main] *)

(** Truth value of what [get_contract_address_from_tx] returns. *)
Definition value_truthy (v : value) : bool :=
  match v with
  | VNone => false
  | VBool b => b
  | VInt z => negb (z =? 0)%Z
  | VFloat is_zero => negb is_zero
  | VStr s => nonempty s
  | VList items => match items with [] => false | _ :: _ => true end
  | VDict entries => match entries with [] => false | _ :: _ => true end
  end.

(** [o or 'None'] for an [Optional[str]] *)
Definition or_none (o : option str) : str :=
  match o with
  | Some (c :: a) => c :: a
  | Some [] | None => lit "None"
  end.

(** ["=" * 80] *)
Definition rule : str := repeat 61%N 80.

Definition latest_deployment : str :=
  lit "/workspace/game-components/LATEST_DEPLOYMENT.txt".

Section Main.

Variable subprocess_run : trace -> command -> outcome completed.
Variable json_loads : str -> outcome value.

(** The text of [n / 100], a [float], in an f-string. *)
Variable format_percent : Z -> outcome str.

(** [str(v)] for a [float], a [list] or a [dict]. *)
Variable repr_value : value -> outcome str.

(** What [open(path, 'w')], [f.write(chunk)] and the closing of the file
    give, after what has been done so far. *)
Variable open_file : trace -> str -> outcome unit.
Variable write_file : trace -> str -> str -> outcome unit.
Variable close_file : trace -> str -> outcome unit.

(** [str(v)], as an f-string formats [v]. *)
Definition format_value (v : value) : outcome str :=
  match v with
  | VStr s => Val s
  | VNone => Val (lit "None")
  | VBool b => Val (str_of_bool b)
  | VInt z => raised (str_of_int z)
  | VFloat _ | VList _ | VDict _ => repr_value v
  end.

(** [open(path, 'w')] *)
Definition open_w (path : str) : IO unit :=
  fun t => (open_file t path, t ++ [Opened path]).

(** [f.write(chunk)] for the file opened at [path] *)
Definition f_write (path chunk : str) : IO unit :=
  fun t => (write_file t path chunk, t ++ [Wrote path chunk]).

(** [f.close()] *)
Definition f_close (path : str) : IO unit :=
  fun t => (close_file t path, t ++ [Closed path]).

(** [with open(path, 'w') as f: body].  When [open] raises there is no
    block.  Otherwise the file is closed when the block is left, by its
    end or by an exception; an exception of the closing takes the place
    of the outcome of the block. *)
Definition with_open (path : str) (body : IO unit) : IO unit :=
  fun t =>
    match open_w path t with
    | (Val _, t1) =>
        match body t1 with
        | (r, t2) =>
            match f_close path t2 with
            | (Val _, t3) => (r, t3)
            | (Exn e, t3) => (Exn e, t3)
            end
        end
    | (Exn e, t1) => (Exn e, t1)
    end.

Local Open Scope io_scope.

(** [verify_deployment] called on whatever the receipt held.  With an
    address that is not a [str] the list handed to [subprocess.run] is no
    command: the call raises [TypeError] when it converts the arguments,
    before it starts a process.  The trace gets no [Ran] event, and the
    [except] clause does not catch the exception. *)
Definition verify_deployment_of (contract_address : value)
    (profile expected_name : str) : IO bool :=
  match contract_address with
  | VStr s => verify_deployment subprocess_run s profile expected_name
  | v =>
      print (nl ++ lit "Verifying deployment...") ;;
      address_text <- of_outcome (format_value v) ;;
      print (lit "  Contract Address: " ++ address_text) ;;
      print (lit "  Expected Name: " ++ expected_name) ;;
      io_raise TypeError
  end.

(** [main], from the parsed arguments on. *)
Definition main (args : Namespace) : IO unit :=
  let config := config_of_args args in
  print rule ;;
  print (lit "FullTokenContract Deployment Script") ;;
  print rule ;;
  print (nl ++ lit "Configuration:") ;;
  print (lit "  Name: " ++ name config) ;;
  print (lit "  Symbol: " ++ symbol config) ;;
  print (lit "  Base URI: " ++ base_uri config) ;;
  print (lit "  Royalty Receiver: " ++ royalty_receiver config) ;;
  fraction <- of_exc (str_of_int (royalty_fraction config)) ;;
  percent <- of_outcome (format_percent (royalty_fraction config)) ;;
  print (lit "  Royalty Fraction: " ++ fraction
           ++ lit " (" ++ percent ++ lit "%)") ;;
  print (lit "  Game Registry: " ++ or_none (game_registry_address config)) ;;
  print (lit "  Event Relayer: " ++ or_none (event_relayer_address config)) ;;
  print [] ;;
  r <- deploy_via_udc subprocess_run config ;;
  let '(success, tx_hash, error) := r in
  if negb success then
    print (nl ++ [0x274C%N] ++ lit " Deployment failed: " ++ error) ;;
    io_raise (SystemExit 1)
  else
    print (nl ++ [0x2705%N] ++ lit " Deployment transaction submitted!") ;;
    print (lit "   Transaction Hash: " ++ tx_hash) ;;
    contract_address <-
      get_contract_address_from_tx subprocess_run json_loads
        tx_hash (profile config) ;;
    match contract_address with
    | Some v =>
        if value_truthy v then
          print (nl ++ [0x1F389%N] ++ lit " Contract deployed successfully!") ;;
          address_text <- of_outcome (format_value v) ;;
          print (lit "   Contract Address: " ++ address_text) ;;
          (if negb (args_no_verify args)
           then (_ <- verify_deployment_of v (profile config) (name config) ;;
                 io_ret tt)
           else io_ret tt) ;;
          with_open latest_deployment
            (address_text <- of_outcome (format_value v) ;;
             f_write latest_deployment
               (lit "Contract Address: " ++ address_text ++ nl) ;;
             f_write latest_deployment
               (lit "Transaction Hash: " ++ tx_hash ++ nl) ;;
             f_write latest_deployment
               (lit "Class Hash: " ++ class_hash config ++ nl) ;;
             f_write latest_deployment (lit "Name: " ++ name config ++ nl) ;;
             f_write latest_deployment
               (lit "Symbol: " ++ symbol config ++ nl)) ;;
          print (nl ++ [0x1F4DD%N]
                   ++ lit " Deployment details saved to: LATEST_DEPLOYMENT.txt")
        else
          print (nl ++ [0x26A0%N; 0xFE0F%N]
                   ++ lit "  Could not automatically extract contract address") ;;
          print (lit "   Query transaction manually: starkli transaction-receipt "
                   ++ tx_hash)
    | None =>
        print (nl ++ [0x26A0%N; 0xFE0F%N]
                 ++ lit "  Could not automatically extract contract address") ;;
        print (lit "   Query transaction manually: starkli transaction-receipt "
                 ++ tx_hash)
    end ;;
    print (nl ++ rule) ;;
    print (lit "Deployment Complete!") ;;
    print rule.

End Main.

(** ** Reading a trace *)


Definition printed (t : trace) : list str :=
  flat_map (fun e => match e with Printed l => [l] | _ => [] end) t.

(** What the script has done to files. *)
Definition written (t : trace) : list event :=
  flat_map (fun e => match e with
                     | Opened _ | Wrote _ _ | Closed _ => [e]
                     | Printed _ | Ran _ => []
                     end) t.




(** A sample of what [sncast invoke] prints. *)
Definition sample_output : str :=
  lit "Success: Invoke completed" ++ nl ++ nl
    ++ lit "Transaction Hash: 0x05e1f3" ++ nl.


(** The [starkli] command for one path. *)
Definition starkli_receipt (starkli_path tx_hash : str) : command :=
  {| argv := [starkli_path; lit "transaction-receipt"; tx_hash];
     cwd := None;
     env := [starknet_rpc] |}.

(** A receipt with one event that carries one address. *)
Definition sample_receipt : value :=
  VDict [ (lit "type", VStr (lit "INVOKE"));
          (lit "events",
           VList [ VDict [ (lit "from_address", VStr (lit "0x41a7"));
                           (lit "data", VList [VStr (lit "0x07c2");
                                               VStr (lit "0x0127")]) ] ]) ].



(** A computation that writes no file. *)
Definition keeps_files {A} (m : IO A) : Prop :=
  forall t, written (snd (m t)) = written t.

(** Whether a call returned. *)
Definition returned {A} (o : outcome A) : bool :=
  match o with
  | Val _ => true
  | Exn _ => false
  end.

(** A computation that does to files at most what [allowed] admits, given
    whether it returned. *)
Definition writes_only {A} (allowed : bool -> list event -> Prop)
    (m : IO A) : Prop :=
  forall t, exists w,
    written (snd (m t)) = written t ++ w /\ allowed (returned (fst (m t))) w.

(** The five lines of [LATEST_DEPLOYMENT.txt]. *)
Definition deployment_lines (address_text tx_hash : str)
    (config : DeploymentConfig) : list str :=
  [ lit "Contract Address: " ++ address_text ++ nl;
    lit "Transaction Hash: " ++ tx_hash ++ nl;
    lit "Class Hash: " ++ class_hash config ++ nl;
    lit "Name: " ++ name config ++ nl;
    lit "Symbol: " ++ symbol config ++ nl ].

(** What [main] does to files, if anything: it opens
    [LATEST_DEPLOYMENT.txt] once, for an address that counts as true;
    when the file could be opened it hands the first [k] of the five
    lines to [f.write], in order, and closes the file; [k] is 5 when
    [main] returned. *)
Definition deployment_details (format : value -> outcome str)
    (config : DeploymentConfig) (main_returned : bool) (w : list event)
  : Prop :=
  w = [] \/
  exists address address_text tx_hash,
    value_truthy address = true /\
    format address = Val address_text /\
    ((w = [Opened latest_deployment] /\ main_returned = false) \/
     exists k,
       w = Opened latest_deployment
             :: map (Wrote latest_deployment)
                  (firstn k (deployment_lines address_text tx_hash config))
             ++ [Closed latest_deployment] /\
       (main_returned = true -> k = 5)).

(** Sample arguments: the defaults of [main]. *)
Definition default_args : Namespace := {|
  args_name := lit "ProvableGameToken";
  args_symbol := lit "PGT";
  args_base_uri := lit "https://api.provable.games/token/";
  args_royalty_receiver :=
    lit "0x127fd5f1fe78a71f8bcd1fec63e3fe2f0486b6ecd5c86a0466c3a21fa5cfcec";
  args_royalty_fraction := 500;
  args_game_registry :=
    lit "0x00348dafbd271cc82bfc57e3edd3a7b3163008f53c586e31d822862b72e1a663";
  args_event_relayer := None;
  args_class_hash :=
    lit "0x075137b5c45312610d7cb6d43982e5fd5bd0df6c0b1e51518ced64a91f125e85";
  args_udc_address :=
    lit "0x041a78e741e5af2fec34b695679bc6891742439f7afb8484ecd7766661ad02bf";
  args_profile := lit "default";
  args_salt := 0;
  args_no_unique := false;
  args_no_verify := false
|}.



(** A call whose exceptions are none of those the loop of
    [get_contract_address_from_tx] catches. *)
Definition only_uncaught {A} (m : outcome A) : Prop :=
  forall e, m = Exn e -> caught e = false.


(** ** Facts about the Python fragment *)

Section Lists.

Context {A B : Type}.

Lemma fold_left_snoc (f : B -> A) (l : list B) (acc : list A) :
  fold_left (fun r i => r ++ [f i]) l acc = acc ++ map f l.
Proof.
  revert acc.
  induction l as [|i l IH]; intros acc; simpl.
  - now rewrite app_nil_r.
  - rewrite IH, <- app_assoc. reflexivity.
Qed.

Lemma firstn_plus (l : list A) (a b : nat) :
  firstn (a + b) l = firstn a l ++ firstn b (skipn a l).
Proof.
  revert l.
  induction a as [|a IH]; intros l; simpl.
  - reflexivity.
  - destruct l as [|x l]; simpl.
    + now rewrite firstn_nil.
    + now rewrite IH.
Qed.

End Lists.

Lemma bind_return {A B} (m : exc A) (k : A -> exc B) (a : A) :
  m = Return a -> bind m k = k a.
Proof. intros ->. reflexivity. Qed.

(** *** The codec *)

Lemma utf8_codepoint_scalar (c : codepoint) :
  scalar c <-> exists b, utf8_codepoint c = Return b.
Proof.
  unfold scalar, utf8_codepoint.
  destruct (c <? 0x80)%N eqn:H1.
  { apply N.ltb_lt in H1. split; [eauto|intros _].
    unfold is_surrogate. split; [lia|].
    apply andb_false_iff. left. apply N.leb_gt. lia. }
  destruct (c <? 0x800)%N eqn:H2.
  { apply N.ltb_lt in H2. split; [eauto|intros _].
    unfold is_surrogate. split; [lia|].
    apply andb_false_iff. left. apply N.leb_gt. lia. }
  destruct (is_surrogate c) eqn:H3.
  { split; [intros [_ H]; discriminate|intros [b H]; discriminate]. }
  destruct (c <? 0x10000)%N eqn:H4.
  { apply N.ltb_lt in H4. split; [eauto|intros _]. split; [lia|reflexivity]. }
  destruct (c <=? 0x10FFFF)%N eqn:H5.
  { apply N.leb_le in H5. split; [eauto|intros _]. split; [lia|reflexivity]. }
  apply N.leb_gt in H5.
  split; [intros [H _]; lia|intros [b H]; discriminate].
Qed.

Lemma encode_utf8_encodable (s : str) :
  encodable s <-> exists b, encode_utf8 s = Return b.
Proof.
  unfold encodable.
  induction s as [|c s IH]; simpl.
  - split; [eauto|constructor].
  - split.
    + intros H. inversion H as [|? ? Hc Hs]; subst.
      apply utf8_codepoint_scalar in Hc. destruct Hc as [b ->].
      apply IH in Hs. destruct Hs as [bs ->].
      simpl. eauto.
    + intros [b H].
      destruct (utf8_codepoint c) as [b1|] eqn:Hc; [|discriminate].
      destruct (encode_utf8 s) as [bs|] eqn:Hs; [|discriminate].
      constructor.
      * apply utf8_codepoint_scalar. eauto.
      * apply IH. eauto.
Qed.

Lemma utf8_codepoint_exn (c : codepoint) (e : exn) :
  utf8_codepoint c = Raise e -> e = UnicodeEncodeError.
Proof.
  unfold utf8_codepoint.
  repeat match goal with
         | |- context [if ?b then _ else _] => destruct b
         end; congruence.
Qed.

Lemma encode_utf8_exn (s : str) (e : exn) :
  encode_utf8 s = Raise e -> e = UnicodeEncodeError.
Proof.
  induction s as [|c s IH]; cbn [encode_utf8]; [discriminate|].
  destruct (utf8_codepoint c) as [b|e1] eqn:Hc; cbn [bind].
  - destruct (encode_utf8 s) as [bs|e2]; cbn [bind]; [discriminate|].
    intros H. apply IH. congruence.
  - intros H. apply (utf8_codepoint_exn c). congruence.
Qed.

Lemma encode_utf8_raises (s : str) :
  ~ encodable s <-> encode_utf8 s = Raise UnicodeEncodeError.
Proof.
  rewrite encode_utf8_encodable.
  destruct (encode_utf8 s) as [b|e] eqn:E.
  - split; [intros H; exfalso; eauto|discriminate].
  - rewrite (encode_utf8_exn s E).
    split; [reflexivity|intros _ [b H]; discriminate].
Qed.

(** *** Decimal numerals *)

Lemma uint_of_digits_digits (d : uint) : uint_of_digits (digits d) = Some d.
Proof. induction d; simpl; try rewrite IHd; reflexivity. Qed.

Lemma word_value_digits (d : uint) :
  word_value (digits d) = parse_dec (digits d).
Proof. destruct d as [|d|d|d|d|d|d|d|d|d|d]; try reflexivity.
  destruct d; reflexivity. Qed.

Lemma parse_dec_digits (d : uint) :
  d <> Nil -> parse_dec (digits d) = Some (N.of_uint d).
Proof.
  intros Hd. unfold parse_dec.
  rewrite uint_of_digits_digits.
  destruct d; try reflexivity. congruence.
Qed.

Lemma numeral_of_nat (n : nat) :
  numeral (Z.of_nat n) = digits (N.to_uint (N.of_nat n)).
Proof. destruct n; reflexivity. Qed.

Lemma word_value_str_of_nat (n : nat) :
  word_value (numeral (Z.of_nat n)) = Some (N.of_nat n).
Proof.
  rewrite numeral_of_nat, word_value_digits, parse_dec_digits.
  - now rewrite DecimalN.Unsigned.of_to.
  - destruct (N.of_nat n); simpl; [discriminate|].
    apply DecimalPos.Unsigned.to_uint_nonnil.
Qed.

(** *** Hexadecimal numerals and big-endian values *)

Lemma hex_val_high (b : byte) :
  hex_val (hex_digit (Byte.to_N b / 16)) = Some (Byte.to_N b / 16)%N.
Proof. destruct b; reflexivity. Qed.

Lemma hex_val_low (b : byte) :
  hex_val (hex_digit (Byte.to_N b mod 16)) = Some (Byte.to_N b mod 16)%N.
Proof. destruct b; reflexivity. Qed.

Lemma parse_hex_acc_hex (b : bytes) (acc : N) :
  parse_hex_acc acc (hex b) =
  Some (fold_left (fun a x => (a * 256 + Byte.to_N x)%N) b acc).
Proof.
  revert acc.
  induction b as [|x b IH]; intros acc; simpl.
  - reflexivity.
  - rewrite hex_val_high, hex_val_low, IH.
    do 2 f_equal.
    pose proof (N.div_mod (Byte.to_N x) 16). lia.
Qed.

Lemma hex_nonempty (b : bytes) : b <> [] -> hex b <> [].
Proof. destruct b; [congruence|discriminate]. Qed.

Lemma word_value_hex (b : bytes) :
  b <> [] -> word_value (lit "0x" ++ hex b) = Some (be_value b).
Proof.
  intros Hb. change (word_value (lit "0x" ++ hex b)) with (parse_hex (hex b)).
  unfold parse_hex.
  destruct (hex b) eqn:E; [now apply hex_nonempty in E|].
  rewrite <- E. apply parse_hex_acc_hex.
Qed.

Lemma be_value_snoc (b : bytes) (x : byte) :
  be_value (b ++ [x]) = (be_value b * 256 + Byte.to_N x)%N.
Proof. unfold be_value. now rewrite fold_left_app. Qed.

Lemma byte_of_to_N (x : byte) : byte_of_N (Byte.to_N x) = x.
Proof. unfold byte_of_N. now rewrite Byte.of_to_N. Qed.

Lemma to_be_bytes_be_value (b : bytes) :
  to_be_bytes (length b) (be_value b) = b.
Proof.
  unfold to_be_bytes.
  induction b as [|x b IH] using rev_ind; [reflexivity|].
  rewrite length_app, Nat.add_comm, be_value_snoc. simpl.
  pose proof (Byte.to_N_bounded x) as Hx.
  replace ((be_value b * 256 + Byte.to_N x) mod 256)%N with (Byte.to_N x).
  2:{ rewrite N.add_comm, N.Div0.mod_add. symmetry. apply N.mod_small. lia. }
  replace ((be_value b * 256 + Byte.to_N x) / 256)%N with (be_value b).
  2:{ rewrite N.add_comm, N.div_add by lia.
      rewrite N.div_small by lia. reflexivity. }
  now rewrite byte_of_to_N, IH.
Qed.

(** *** Chunks of 31 bytes *)

Lemma chunk_firstn (b : bytes) (i : nat) :
  chunk b i = firstn 31 (skipn (i * 31) b).
Proof. unfold chunk, slice. f_equal. lia. Qed.

Lemma length_chunk (b : bytes) (i : nat) :
  i < length b / 31 -> length (chunk b i) = 31.
Proof.
  intros Hi. rewrite chunk_firstn, length_firstn, length_skipn.
  pose proof (Nat.div_mod_eq (length b) 31). nia.
Qed.

Lemma concat_chunks (b : bytes) (n : nat) :
  concat (map (chunk b) (seq 0 n)) = firstn (n * 31) b.
Proof.
  induction n as [|n IH]; [reflexivity|].
  rewrite seq_S, map_app, concat_app, IH.
  change (concat (map (chunk b) [0 + n])) with (chunk b n ++ []).
  rewrite app_nil_r, chunk_firstn.
  replace (S n * 31) with (n * 31 + 31) by lia.
  now rewrite firstn_plus.
Qed.

Lemma chunks_and_rest (b : bytes) :
  concat (map (chunk b) (seq 0 (length b / 31)))
    ++ slice_from b (length b / 31 * 31) = b.
Proof. rewrite concat_chunks. apply firstn_skipn. Qed.

Lemma length_rest (b : bytes) :
  length (slice_from b (length b / 31 * 31)) = length b mod 31.
Proof.
  unfold slice_from. rewrite length_skipn.
  pose proof (Nat.div_mod_eq (length b) 31). lia.
Qed.

Lemma length_full_words (b : bytes) : length (full_words b) = length b / 31.
Proof. unfold full_words. now rewrite length_map, length_seq. Qed.

Lemma length_pending_words (b : bytes) : length (pending_words b) = 2.
Proof. unfold pending_words. now destruct (0 <? length b mod 31). Qed.

(** *** [encode_bytearray] in closed form *)

Lemma encode_bytearray_serialized (s : str) :
  encode_bytearray s = (b <- encode_utf8 s ;; Return (serialized b)).
Proof.
  unfold encode_bytearray.
  destruct (encode_utf8 s) as [b|e]; cbn [bind]; [|reflexivity].
  rewrite fold_left_snoc.
  unfold serialized, pending_words, full_words, full_word, chunk.
  destruct (0 <? length b mod 31); cbv zeta; f_equal;
    rewrite <- !app_assoc; reflexivity.
Qed.

Lemma encode_bytearray_return (s : str) (b : bytes) :
  encode_utf8 s = Return b -> encode_bytearray s = Return (serialized b).
Proof. intros H. now rewrite encode_bytearray_serialized, H. Qed.

(** *** Reading the serialised words *)

Lemma word_value_full_word (b : bytes) (i : nat) :
  i < length b / 31 -> word_value (full_word b i) = Some (be_value (chunk b i)).
Proof.
  intros Hi. apply word_value_hex.
  intros E. apply length_chunk in Hi. rewrite E in Hi. discriminate.
Qed.

Lemma values_full_words (b : bytes) (l : list nat) :
  Forall (fun i => i < length b / 31) l ->
  values (map (full_word b) l) = Some (map (fun i => be_value (chunk b i)) l).
Proof.
  induction 1 as [|i l Hi Hl IH]; cbn [map values]; [reflexivity|].
  now rewrite word_value_full_word, IH.
Qed.

Lemma to_be_bytes_chunks (b : bytes) (l : list nat) :
  Forall (fun i => i < length b / 31) l ->
  map (to_be_bytes 31) (map (fun i => be_value (chunk b i)) l)
  = map (chunk b) l.
Proof.
  induction 1 as [|i l Hi Hl IH]; cbn [map]; [reflexivity|].
  rewrite IH. f_equal.
  rewrite <- (length_chunk b Hi) at 1. apply to_be_bytes_be_value.
Qed.

Lemma seq_below (n : nat) : Forall (fun i => i < n) (seq 0 n).
Proof. apply Forall_forall. intros i Hi. apply in_seq in Hi. lia. Qed.

Lemma decode_pending (b : bytes) :
  exists pw pl p n,
    pending_words b = [pw; pl] /\
    word_value pw = Some p /\
    word_value pl = Some n /\
    n = N.of_nat (length b mod 31) /\
    p = be_value (slice_from b (length b / 31 * 31)).
Proof.
  unfold pending_words.
  pose proof (length_rest b) as Hlen.
  destruct (0 <? length b mod 31) eqn:Hp.
  - apply Nat.ltb_lt in Hp.
    do 4 eexists. split; [reflexivity|].
    split; [|split; [apply word_value_str_of_nat|split; reflexivity]].
    apply word_value_hex. intros E.
    rewrite E in Hlen. change (length (@nil byte)) with 0 in Hlen. lia.
  - apply Nat.ltb_ge in Hp.
    exists (lit "0"), (lit "0"), 0%N, 0%N.
    assert (H0 : length b mod 31 = 0) by lia.
    rewrite H0 in *.
    destruct (slice_from b (length b / 31 * 31)); [|discriminate].
    repeat split; reflexivity.
Qed.


(** ** The byte-array encoding *)

Example encode_hello :
  encode_bytearray hello = Return [lit "0"; lit "0x68656c6c6f"; lit "5"].
Proof. reflexivity. Qed.

Example decode_hello :
  decode [lit "0"; lit "0x68656c6c6f"; lit "5"] =
  Some [x68; x65; x6c; x6c; x6f].
Proof. reflexivity. Qed.

Example numeral_samples :
  numeral 500 = lit "500" /\ numeral 0 = lit "0" /\
  numeral (-7) = lit "-7".
Proof. repeat split; reflexivity. Qed.

Example encode_utf8_euro : encode_utf8 [0x20AC%N] = Return [xe2; x82; xac].
Proof. reflexivity. Qed.

Example encode_utf8_emoji :
  encode_utf8 [0x1F600%N] = Return [xf0; x9f; x98; x80].
Proof. reflexivity. Qed.

Example encode_text_euro :
  encode_bytearray text_euro =
  Return [lit "1";
          lit "0x616161616161616161616161616161616161616161616161616161616161e2";
          lit "0x82ac62";
          lit "3"].
Proof. reflexivity. Qed.



(** C2. The word list [encode_bytearray] returns has
    [full_word_count + 3] words, where [full_word_count] is the byte
    length divided by 31, rounded down; for the empty text that is 3. *)
Theorem encode_bytearray_length (s : str) (b : bytes) :
  encode_utf8 s = Return b ->
  exists ws,
    encode_bytearray s = Return ws /\ length ws = length b / 31 + 3.
Proof.
  intros H. exists (serialized b). split.
  - now apply encode_bytearray_return.
  - unfold serialized. cbn [length].
    rewrite length_app, length_full_words, length_pending_words. lia.
Qed.

Lemma encode_bytearray_length_empty :
  encode_utf8 [] = Return [] /\
  exists ws, encode_bytearray [] = Return ws /\ length ws = 0 / 31 + 3.
Proof.
  split; [reflexivity|].
  apply (@encode_bytearray_length [] []). reflexivity.
Defined.

(** C3, as the specification states it, fails: the empty text is not
    serialised as ["0", "0x0", "0"]. *)
Lemma encode_empty_not_0x0 :
  encode_bytearray [] = Return [lit "0"; lit "0"; lit "0"] /\
  encode_bytearray [] <> Return [lit "0"; lit "0x0"; lit "0"].
Proof. split; [reflexivity|discriminate]. Qed.

(** C3, amended. When the byte length is a multiple of 31 the word list
    ends with the two tokens ["0", "0"]; the empty text gives
    ["0", "0", "0"], and a text of 31 bytes gives
    ["1", "0x" + hex of the 31 bytes, "0", "0"]. *)
Theorem encode_bytearray_no_pending (s : str) (b : bytes) :
  encode_utf8 s = Return b ->
  length b mod 31 = 0 ->
  (exists front,
      encode_bytearray s = Return (front ++ [lit "0"; lit "0"])) /\
  (s = [] -> encode_bytearray s = Return [lit "0"; lit "0"; lit "0"]) /\
  (length b = 31 ->
   encode_bytearray s =
   Return [lit "1"; lit "0x" ++ hex b; lit "0"; lit "0"]).
Proof.
  intros H Hmod.
  rewrite (encode_bytearray_return _ H).
  unfold serialized, pending_words. rewrite Hmod. cbn [Nat.ltb Nat.leb].
  split; [|split].
  - exists (numeral (Z.of_nat (length b / 31)) :: full_words b).
    reflexivity.
  - intros ->. inversion H. reflexivity.
  - intros Hlen. unfold full_words, full_word, chunk, slice.
    rewrite Hlen. cbn [Nat.div Nat.divmod fst seq map app].
    change ((0 + 1) * 31 - 0 * 31) with 31.
    change (0 * 31) with 0. rewrite skipn_O.
    rewrite firstn_all2 by lia. reflexivity.
Qed.

Lemma encode_bytearray_no_pending_text31 :
  encode_utf8 text31 = Return (repeat x61 31) /\
  length (repeat x61 31) mod 31 = 0 /\
  encode_bytearray text31 =
  Return [lit "1"; lit "0x" ++ hex (repeat x61 31); lit "0"; lit "0"].
Proof.
  split; [reflexivity|]. split; [reflexivity|].
  apply (@encode_bytearray_no_pending text31 (repeat x61 31));
    reflexivity.
Defined.

(** C4. With [n] the number of UTF-8 bytes of the text,
    [full_word_count = n / 31], [pending_length = n mod 31] and
    [full_word_count * 31 + pending_length = n]; the [i]-th full word is
    the big-endian value of bytes [31*i, 31*i+31); the pending word is the
    big-endian value of the last [pending_length] bytes, which is 0 when
    there are none. *)
Theorem encode_bytearray_chunking (s : str) (b : bytes) :
  encode_utf8 s = Return b ->
  let n := length b in
  let full_word_count := n / 31 in
  let pending_length := n mod 31 in
  full_word_count * 31 + pending_length = n /\
  exists count fulls pending plen,
    encode_bytearray s = Return (count :: fulls ++ [pending; plen]) /\
    word_value count = Some (N.of_nat full_word_count) /\
    length fulls = full_word_count /\
    (forall i, i < full_word_count ->
       exists w, nth_error fulls i = Some w /\
                 word_value w = Some (be_value (slice b (31 * i) (31 * i + 31)))) /\
    length (slice_from b (n - pending_length)) = pending_length /\
    word_value pending = Some (be_value (slice_from b (n - pending_length))) /\
    (pending_length = 0 -> word_value pending = Some 0%N) /\
    word_value plen = Some (N.of_nat pending_length).
Proof.
  intros H n full_word_count pending_length.
  pose proof (Nat.div_mod_eq n 31) as Hn.
  fold full_word_count pending_length in Hn.
  assert (Hrest : n - pending_length = length b / 31 * 31)
    by (fold n full_word_count; lia).
  split; [lia|].
  destruct (decode_pending b) as (pw & pl & p & m & Epw & Hpw & Hpl & -> & ->).
  exists (numeral (Z.of_nat full_word_count)), (full_words b), pw, pl.
  split; [|split; [|split; [|split; [|split; [|split; [|split]]]]]].
  - rewrite (encode_bytearray_return _ H). unfold serialized.
    now rewrite Epw.
  - apply word_value_str_of_nat.
  - apply length_full_words.
  - intros i Hi. exists (full_word b i). split.
    + unfold full_words. rewrite nth_error_map, nth_error_seq.
      apply Nat.ltb_lt in Hi. fold n full_word_count. now rewrite Hi.
    + rewrite word_value_full_word by exact Hi.
      unfold chunk. do 3 f_equal; lia.
  - rewrite Hrest. apply length_rest.
  - now rewrite Hrest.
  - intros H0. rewrite Hpw. f_equal.
    pose proof (length_rest b) as Hlen.
    unfold pending_length, n in H0. rewrite H0 in Hlen.
    now destruct (slice_from b (length b / 31 * 31)).
  - exact Hpl.
Qed.

Lemma encode_bytearray_chunking_euro :
  encode_utf8 text_euro = Return (repeat x61 30 ++ [xe2; x82; xac; x62]) /\
  exists count fulls pending plen,
    encode_bytearray text_euro = Return (count :: fulls ++ [pending; plen]) /\
    word_value count = Some 1%N /\
    length fulls = 1 /\
    word_value pending = Some 0x82ac62%N /\
    word_value plen = Some 3%N.
Proof.
  split; [reflexivity|].
  destruct (@encode_bytearray_chunking text_euro
              (repeat x61 30 ++ [xe2; x82; xac; x62]) eq_refl)
    as (_ & count & fulls & pending & plen & E & Hc & Hl & _ & _ & Hp & _ & Hn).
  exists count, fulls, pending, plen.
  repeat split; assumption.
Defined.

(** ** The constructor calldata *)

(** [str] of an [int] returns the numeral, or raises [ValueError]. *)
Lemma str_of_int_fits (z : Z) :
  exceeds_max_str_digits z = false -> str_of_int z = Return (numeral z).
Proof. unfold str_of_int. now intros ->. Qed.

Lemma str_of_int_exceeds (z : Z) :
  exceeds_max_str_digits z = true -> str_of_int z = Raise ValueError.
Proof. unfold str_of_int. now intros ->. Qed.

Lemma str_of_int_return (z : Z) (s : str) :
  str_of_int z = Return s ->
  s = numeral z /\ exceeds_max_str_digits z = false.
Proof.
  unfold str_of_int.
  destruct (exceeds_max_str_digits z); [discriminate|].
  intros H. split; [congruence|reflexivity].
Qed.

Lemma str_of_int_raise (z : Z) (e : exn) :
  str_of_int z = Raise e ->
  e = ValueError /\ exceeds_max_str_digits z = true.
Proof.
  unfold str_of_int.
  destruct (exceeds_max_str_digits z); [|discriminate].
  intros H. split; [congruence|reflexivity].
Qed.

Example str_of_int_limit :
  str_of_int (too_long - 1) = Return (repeat 57%N (N.to_nat 4300)) /\
  str_of_int (1 - too_long) = Return (45%N :: repeat 57%N (N.to_nat 4300)) /\
  str_of_int too_long = Raise ValueError /\
  str_of_int (- too_long) = Raise ValueError.
Proof. vm_compute. repeat split. Qed.

Lemma build_constructor_calldata_words (config : DeploymentConfig) :
  build_constructor_calldata config =
  (name_words <- encode_bytearray (name config) ;;
   symbol_words <- encode_bytearray (symbol config) ;;
   base_uri_words <- encode_bytearray (base_uri config) ;;
   _ <- str_of_int (royalty_fraction config) ;;
   let words := calldata_words config name_words symbol_words base_uri_words in
   Return (length words, words)).
Proof.
  unfold build_constructor_calldata.
  destruct (encode_bytearray (name config)) as [e1|]; [|reflexivity].
  destruct (encode_bytearray (symbol config)) as [e2|]; [|reflexivity].
  destruct (encode_bytearray (base_uri config)) as [e3|]; [|reflexivity].
  cbn [bind]. unfold str_of_int.
  destruct (exceeds_max_str_digits (royalty_fraction config));
    [reflexivity|].
  cbn [bind]. cbv zeta. unfold calldata_words.
  destruct (game_registry_address config) as [[|c1 a1]|];
    destruct (event_relayer_address config) as [[|c2 a2]|];
    cbn [truthy optional_words]; rewrite <- !app_assoc; reflexivity.
Qed.

Lemma encode_bytearray_encodable (s : str) :
  encodable s <-> exists ws, encode_bytearray s = Return ws.
Proof.
  rewrite encode_utf8_encodable, encode_bytearray_serialized.
  split.
  - intros [b ->]. cbn [bind]. eauto.
  - intros [ws H]. destruct (encode_utf8 s) as [b|]; [eauto|discriminate].
Qed.

Lemma build_constructor_calldata_inv (config : DeploymentConfig)
    (n : nat) (ws : list str) :
  build_constructor_calldata config = Return (n, ws) ->
  exists name_words symbol_words base_uri_words,
    encode_bytearray (name config) = Return name_words /\
    encode_bytearray (symbol config) = Return symbol_words /\
    encode_bytearray (base_uri config) = Return base_uri_words /\
    ws = calldata_words config name_words symbol_words base_uri_words /\
    n = length ws.
Proof.
  rewrite build_constructor_calldata_words.
  destruct (encode_bytearray (name config)) as [e1|]; [|discriminate].
  destruct (encode_bytearray (symbol config)) as [e2|]; [|discriminate].
  destruct (encode_bytearray (base_uri config)) as [e3|]; [|discriminate].
  destruct (str_of_int (royalty_fraction config)); [|discriminate].
  cbn [bind]. cbv zeta. intros H. inversion H; subst.
  exists e1, e2, e3. repeat split; reflexivity.
Qed.

Lemma build_constructor_calldata_fraction (config : DeploymentConfig)
    (n : nat) (ws : list str) :
  build_constructor_calldata config = Return (n, ws) ->
  exceeds_max_str_digits (royalty_fraction config) = false.
Proof.
  rewrite build_constructor_calldata_words.
  destruct (encode_bytearray (name config)) as [e1|]; [|discriminate].
  destruct (encode_bytearray (symbol config)) as [e2|]; [|discriminate].
  destruct (encode_bytearray (base_uri config)) as [e3|]; [|discriminate].
  cbn [bind].
  destruct (str_of_int (royalty_fraction config)) as [s|] eqn:E;
    [|discriminate].
  intros _. now apply str_of_int_return in E.
Qed.

Lemma optional_words_present (c : codepoint) (a : str) :
  optional_words (Some (c :: a)) = [lit "0"; c :: a].
Proof. reflexivity. Qed.

Lemma optional_words_absent : optional_words None = [lit "1"].
Proof. reflexivity. Qed.

Lemma optional_words_empty : optional_words (Some []) = [lit "1"].
Proof. reflexivity. Qed.

Example default_calldata :
  build_constructor_calldata default_config =
  Return (15, default_calldata_words).
Proof. reflexivity. Qed.

(** C5, as the specification states it, fails: an optional address that
    is present but empty is serialised as the single word ["1"], not as
    ["0"] followed by the address. *)
Lemma empty_relayer_not_encode_optional :
  build_constructor_calldata empty_relayer_config =
    Return (15, default_calldata_words) /\
  Spec.constructor_calldata empty_relayer_config =
    Return (firstn 14 default_calldata_words ++ [lit "0"; []]) /\
  Spec.constructor_calldata empty_relayer_config <>
    Return default_calldata_words.
Proof.
  split; [reflexivity|]. split; [reflexivity|].
  intros E.
  apply (f_equal (fun r => match r with
                           | Return l => length l
                           | Raise _ => 0
                           end)) in E.
  vm_compute in E. discriminate.
Qed.

(** C5, amended. The calldata is the concatenation of the words of
    [name], [symbol] and [base_uri], then [royalty_receiver], then
    [royalty_fraction], then the words of [game_registry] and of
    [event_relayer]; an optional address gives ["0"] and the address when
    it is present and not the empty string, and the single word ["1"]
    when it is absent or the empty string.  With both absent the calldata
    ends in ["1", "1"]; with a non-empty [game_registry] and no
    [event_relayer] it ends in ["0"], the registry address, ["1"]. *)
Theorem build_constructor_calldata_layout (config : DeploymentConfig)
    (n : nat) (ws : list str) :
  build_constructor_calldata config = Return (n, ws) ->
  (exists name_words symbol_words base_uri_words,
      encode_bytearray (name config) = Return name_words /\
      encode_bytearray (symbol config) = Return symbol_words /\
      encode_bytearray (base_uri config) = Return base_uri_words /\
      ws = name_words ++ symbol_words ++ base_uri_words
             ++ [royalty_receiver config]
             ++ [numeral (royalty_fraction config)]
             ++ optional_words (game_registry_address config)
             ++ optional_words (event_relayer_address config)) /\
  (forall o : option str,
      optional_words o =
      match o with
      | Some (c :: a) => [lit "0"; c :: a]
      | Some [] => [lit "1"]
      | None => [lit "1"]
      end) /\
  (game_registry_address config = None ->
   event_relayer_address config = None ->
   exists front, ws = front ++ [lit "1"; lit "1"]) /\
  (forall a,
      game_registry_address config = Some a -> a <> [] ->
      event_relayer_address config = None ->
      exists front, ws = front ++ [lit "0"; a; lit "1"]).
Proof.
  intros H.
  destruct (build_constructor_calldata_inv _ H)
    as (e1 & e2 & e3 & H1 & H2 & H3 & -> & _).
  unfold calldata_words.
  split; [|split; [|split]].
  - exists e1, e2, e3. repeat split; assumption.
  - intros [[|c a]|]; reflexivity.
  - intros -> ->.
    exists (e1 ++ e2 ++ e3 ++ [royalty_receiver config]
               ++ [numeral (royalty_fraction config)]).
    rewrite <- !app_assoc. reflexivity.
  - intros a -> Ha ->. destruct a as [|c a]; [congruence|].
    exists (e1 ++ e2 ++ e3 ++ [royalty_receiver config]
               ++ [numeral (royalty_fraction config)]).
    rewrite <- !app_assoc. reflexivity.
Qed.

Lemma build_constructor_calldata_layout_default :
  build_constructor_calldata default_config =
    Return (15, default_calldata_words) /\
  exists front,
    default_calldata_words =
    front ++
      [lit "0";
       lit "0x00348dafbd271cc82bfc57e3edd3a7b3163008f53c586e31d822862b72e1a663";
       lit "1"].
Proof.
  split; [reflexivity|].
  refine (proj2 (proj2 (proj2
            (@build_constructor_calldata_layout
               default_config 15 default_calldata_words eq_refl)))
            _ eq_refl _ eq_refl).
  discriminate.
Defined.

(** C6. The length [build_constructor_calldata] returns is the number of
    words of the list it returns. *)
Theorem build_constructor_calldata_count (config : DeploymentConfig)
    (n : nat) (ws : list str) :
  build_constructor_calldata config = Return (n, ws) -> n = length ws.
Proof.
  intros H.
  destruct (build_constructor_calldata_inv _ H)
    as (e1 & e2 & e3 & _ & _ & _ & _ & Hn).
  exact Hn.
Qed.

Lemma build_constructor_calldata_count_mixed :
  exists ws,
    build_constructor_calldata mixed_config = Return (17, ws) /\
    17 = length ws.
Proof.
  eexists. split; [reflexivity|].
  apply (@build_constructor_calldata_count mixed_config). reflexivity.
Defined.

Example count_at_boundaries :
  length boundary_configs = 20 /\
  forallb count_is_length boundary_configs = true.
Proof. split; vm_compute; reflexivity. Qed.

(** ** The dispatcher calldata *)

Lemma udc_calldata_cases (config : DeploymentConfig)
    (n : nat) (ws : list str) :
  build_constructor_calldata config = Return (n, ws) ->
  udc_calldata config =
    if exceeds_max_str_digits (salt config) then Raise ValueError
    else Return ([class_hash config;
                  numeral (salt config);
                  if unique config then lit "1" else lit "0";
                  numeral (Z.of_nat n)] ++ ws).
Proof.
  intros H. unfold udc_calldata. rewrite H. cbn [bind].
  unfold str_of_int.
  destruct (exceeds_max_str_digits (salt config)); reflexivity.
Qed.


(** C7. Whenever the constructor calldata is built, the dispatcher
    calldata is the four header words [class_hash], [salt], the
    uniqueness flag and the constructor-calldata length, followed by the
    constructor calldata; the flag is ["1"] for a unique deployment and
    ["0"] otherwise, and the fourth word is the length
    [build_constructor_calldata] returns.  There is no dispatcher
    calldata only when [str(config.salt)] raises, which it does exactly
    for a salt with more digits than the interpreter converts. *)
Theorem udc_calldata_envelope (config : DeploymentConfig)
    (n : nat) (ws : list str) :
  build_constructor_calldata config = Return (n, ws) ->
  udc_calldata config =
    (if exceeds_max_str_digits (salt config) then Raise ValueError
     else Return ([class_hash config;
                   numeral (salt config);
                   if unique config then lit "1" else lit "0";
                   numeral (Z.of_nat n)] ++ ws)) /\
  word_value (numeral (Z.of_nat n)) = Some (N.of_nat (length ws)).
Proof.
  intros H.
  destruct (build_constructor_calldata_inv _ H)
    as (e1 & e2 & e3 & _ & _ & _ & _ & Hn).
  split; [now apply udc_calldata_cases|].
  rewrite <- Hn. apply word_value_str_of_nat.
Qed.

Lemma udc_calldata_envelope_default :
  build_constructor_calldata default_config =
    Return (15, default_calldata_words) /\
  udc_calldata default_config =
    Return ([class_hash default_config; lit "0"; lit "1"; lit "15"]
              ++ default_calldata_words) /\
  word_value (lit "15") = Some 15%N.
Proof.
  split; [reflexivity|].
  exact (@udc_calldata_envelope default_config 15 default_calldata_words
           eq_refl).
Defined.

(** ** Failure *)

(** C8, as the specification states it, fails: a text with a lone
    surrogate is a text, and encoding it raises. *)
Lemma lone_surrogate_raises :
  well_typed_str lone_surrogate /\
  encode_bytearray lone_surrogate = Raise UnicodeEncodeError /\
  build_constructor_calldata
    (with_texts lone_surrogate (lit "PGT") [] default_config)
  = Raise UnicodeEncodeError.
Proof.
  split; [|split; reflexivity].
  repeat constructor. discriminate.
Qed.

(** C8, amended. [encode_bytearray] returns for every text without
    surrogate code points, and [build_constructor_calldata] returns for
    every record whose [name], [symbol] and [base_uri] are such texts and
    whose [royalty_fraction] has no more digits than the interpreter
    converts (4300), whatever its addresses and optional addresses. *)
Theorem encoding_succeeds (s : str) (config : DeploymentConfig) :
  (encodable s -> exists ws, encode_bytearray s = Return ws) /\
  (encodable (name config) ->
   encodable (symbol config) ->
   encodable (base_uri config) ->
   exceeds_max_str_digits (royalty_fraction config) = false ->
   exists n ws, build_constructor_calldata config = Return (n, ws)).
Proof.
  split.
  - apply encode_bytearray_encodable.
  - intros H1 H2 H3 H4.
    apply encode_bytearray_encodable in H1, H2, H3.
    destruct H1 as [e1 H1], H2 as [e2 H2], H3 as [e3 H3].
    rewrite build_constructor_calldata_words, H1, H2, H3.
    rewrite (str_of_int_fits _ H4). cbn [bind].
    eauto.
Qed.

Lemma scalar_lit (s : string) : encodable (lit s).
Proof.
  unfold encodable, lit.
  induction s as [|a s IH]; cbn [list_ascii_of_string map]; constructor.
  - destruct a as [[] [] [] [] [] [] [] []]; split; (reflexivity || discriminate).
  - exact IH.
Qed.

Lemma encoding_succeeds_default :
  (exists ws, encode_bytearray text_euro = Return ws) /\
  (exists n ws, build_constructor_calldata default_config = Return (n, ws)).
Proof.
  split.
  - apply (proj1 (encoding_succeeds text_euro default_config)).
    unfold text_euro. apply Forall_app. split.
    + apply Forall_forall. intros c Hc. apply repeat_spec in Hc. subst c.
      split; [discriminate|reflexivity].
    + repeat constructor; discriminate.
  - apply (proj2 (encoding_succeeds text_euro default_config));
      (apply scalar_lit || reflexivity).
Defined.

(** ** Empty optional addresses *)

(** C10. Whether an optional address is present is decided by its truth
    value: when [game_registry_address] (or [event_relayer_address]) is
    the empty string, the field is serialised as the single word ["1"],
    with no address word, exactly as if it were [None]. *)
Theorem empty_address_is_absent (config : DeploymentConfig)
    (n : nat) (ws : list str) :
  build_constructor_calldata config = Return (n, ws) ->
  exists name_words symbol_words base_uri_words,
    encode_bytearray (name config) = Return name_words /\
    encode_bytearray (symbol config) = Return symbol_words /\
    encode_bytearray (base_uri config) = Return base_uri_words /\
    (game_registry_address config = Some [] ->
     ws = name_words ++ symbol_words ++ base_uri_words
            ++ [royalty_receiver config]
            ++ [numeral (royalty_fraction config)]
            ++ [lit "1"]
            ++ optional_words (event_relayer_address config) /\
     build_constructor_calldata
       (with_optionals None (event_relayer_address config) config)
     = Return (n, ws)) /\
    (event_relayer_address config = Some [] ->
     ws = name_words ++ symbol_words ++ base_uri_words
            ++ [royalty_receiver config]
            ++ [numeral (royalty_fraction config)]
            ++ optional_words (game_registry_address config)
            ++ [lit "1"] /\
     build_constructor_calldata
       (with_optionals (game_registry_address config) None config)
     = Return (n, ws)).
Proof.
  intros H.
  pose proof (build_constructor_calldata_fraction _ H) as Hfit.
  destruct (build_constructor_calldata_inv _ H)
    as (e1 & e2 & e3 & H1 & H2 & H3 & Hws & Hn).
  exists e1, e2, e3. repeat (split; [assumption|]).
  split; intros E;
    (split;
     [ subst ws; unfold calldata_words; rewrite E; reflexivity
     | rewrite build_constructor_calldata_words;
       cbn [with_optionals name symbol base_uri royalty_fraction];
       rewrite H1, H2, H3, (str_of_int_fits _ Hfit); cbn [bind]; cbv zeta;
       subst n ws; unfold calldata_words;
       cbn [with_optionals royalty_receiver royalty_fraction
              game_registry_address event_relayer_address];
       rewrite E; reflexivity ]).
Qed.

Lemma empty_address_is_absent_relayer :
  build_constructor_calldata empty_relayer_config =
    Return (15, default_calldata_words) /\
  build_constructor_calldata
    (with_optionals (game_registry_address empty_relayer_config) None
       empty_relayer_config)
  = Return (15, default_calldata_words).
Proof.
  split; [reflexivity|].
  destruct (@empty_address_is_absent
              empty_relayer_config 15 default_calldata_words eq_refl)
    as (e1 & e2 & e3 & _ & _ & _ & _ & Hrelayer).
  exact (proj2 (Hrelayer eq_refl)).
Defined.

(** ** The store *)

Section Store.

Import Heap.

Variable h : heap.









End Store.







Example heap_encode_hello :
  Heap.encode_bytearray hello [[lit "kept"]] =
  (Return 1, [[lit "kept"]; [lit "0"; lit "0x68656c6c6f"; lit "5"]]).
Proof. reflexivity. Qed.

(** ** The codec is injective *)

Lemma below_cases (P : N -> bool) (n : nat) :
  forallb P (map N.of_nat (seq 0 n)) = true ->
  forall x, (x < N.of_nat n)%N -> P x = true.
Proof.
  intros H x Hx. rewrite forallb_forall in H. apply H.
  rewrite <- (N2Nat.id x). apply in_map. apply in_seq. lia.
Qed.

Lemma lor_128 (y : N) : (y < 64)%N -> N.lor 128 y = (128 + y)%N.
Proof.
  intros H. apply N.eqb_eq.
  apply (below_cases (fun y => N.lor 128 y =? 128 + y)%N 64);
    [vm_compute; reflexivity|exact H].
Qed.

Lemma lor_192 (y : N) : (y < 32)%N -> N.lor 192 y = (192 + y)%N.
Proof.
  intros H. apply N.eqb_eq.
  apply (below_cases (fun y => N.lor 192 y =? 192 + y)%N 32);
    [vm_compute; reflexivity|exact H].
Qed.

Lemma lor_224 (y : N) : (y < 16)%N -> N.lor 224 y = (224 + y)%N.
Proof.
  intros H. apply N.eqb_eq.
  apply (below_cases (fun y => N.lor 224 y =? 224 + y)%N 16);
    [vm_compute; reflexivity|exact H].
Qed.

Lemma lor_240 (y : N) : (y < 8)%N -> N.lor 240 y = (240 + y)%N.
Proof.
  intros H. apply N.eqb_eq.
  apply (below_cases (fun y => N.lor 240 y =? 240 + y)%N 8);
    [vm_compute; reflexivity|exact H].
Qed.

Lemma continuation_value (n : N) :
  continuation n = byte_of_N (128 + n mod 64).
Proof.
  unfold continuation. f_equal.
  change 0x3F%N with (N.ones 6). rewrite N.land_ones.
  apply lor_128. apply N.mod_lt. discriminate.
Qed.

Lemma shiftr_div (c n : N) : N.shiftr c n = (c / 2 ^ n)%N.
Proof. apply N.shiftr_div_pow2. Qed.

Lemma Return_inj {A} (a b : A) : Return a = Return b -> a = b.
Proof. intros H. now inversion H. Qed.

Lemma utf8_codepoint_values (c : codepoint) (l : bytes) :
  utf8_codepoint c = Return l ->
  l = map byte_of_N (utf8_values c) /\
  Forall (fun v => (v < 256)%N) (utf8_values c).
Proof.
  unfold utf8_codepoint, utf8_values.
  destruct (c <? 0x80)%N eqn:H1.
  { apply N.ltb_lt in H1. intros H; apply Return_inj in H; subst l.
    split; [reflexivity|]. repeat constructor. lia. }
  destruct (c <? 0x800)%N eqn:H2.
  { apply N.ltb_lt in H2. intros H; apply Return_inj in H; subst l.
    rewrite continuation_value, shiftr_div.
    change (2 ^ 6)%N with 64%N.
    assert (c / 64 < 32)%N by (apply N.Div0.div_lt_upper_bound; lia).
    assert (c mod 64 < 64)%N by (apply N.mod_lt; discriminate).
    rewrite lor_192 by assumption.
    split; [reflexivity|]. repeat constructor; lia. }
  destruct (is_surrogate c); [discriminate|].
  destruct (c <? 0x10000)%N eqn:H4.
  { apply N.ltb_lt in H4. intros H; apply Return_inj in H; subst l.
    rewrite !continuation_value, !shiftr_div.
    change (2 ^ 6)%N with 64%N. change (2 ^ 12)%N with 4096%N.
    assert (c / 4096 < 16)%N by (apply N.Div0.div_lt_upper_bound; lia).
    assert (c mod 64 < 64)%N by (apply N.mod_lt; discriminate).
    assert ((c / 64) mod 64 < 64)%N by (apply N.mod_lt; discriminate).
    rewrite lor_224 by assumption.
    split; [reflexivity|]. repeat constructor; lia. }
  destruct (c <=? 0x10FFFF)%N eqn:H5; [|discriminate].
  apply N.leb_le in H5. intros H; apply Return_inj in H; subst l.
  rewrite !continuation_value, !shiftr_div.
  change (2 ^ 6)%N with 64%N. change (2 ^ 12)%N with 4096%N.
  change (2 ^ 18)%N with 262144%N.
  assert (c / 262144 < 8)%N by (apply N.Div0.div_lt_upper_bound; lia).
  assert (c mod 64 < 64)%N by (apply N.mod_lt; discriminate).
  assert ((c / 64) mod 64 < 64)%N by (apply N.mod_lt; discriminate).
  assert ((c / 4096) mod 64 < 64)%N by (apply N.mod_lt; discriminate).
  rewrite lor_240 by assumption.
  split; [reflexivity|]. repeat constructor; lia.
Qed.

Ltac division_facts c :=
  pose proof (N.div_mod c 64 ltac:(discriminate));
  pose proof (N.mod_lt c 64 ltac:(discriminate));
  pose proof (N.div_mod (c / 64) 64 ltac:(discriminate));
  pose proof (N.mod_lt (c / 64) 64 ltac:(discriminate));
  pose proof (N.div_mod (c / 4096) 64 ltac:(discriminate));
  pose proof (N.mod_lt (c / 4096) 64 ltac:(discriminate));
  assert (c / 64 / 64 = c / 4096)%N by (now rewrite N.Div0.div_div);
  assert (c / 4096 / 64 = c / 262144)%N by (now rewrite N.Div0.div_div).

Ltac name_divisions c :=
  let q1 := fresh "q" in let q2 := fresh "q" in let q3 := fresh "q" in
  let r1 := fresh "r" in let r2 := fresh "r" in let r3 := fresh "r" in
  let k1 := fresh "k" in let k2 := fresh "k" in
  set (q1 := (c / 64)%N) in *; set (q2 := (c / 4096)%N) in *;
  set (q3 := (c / 262144)%N) in *;
  set (r1 := (c mod 64)%N) in *; set (r2 := (q1 mod 64)%N) in *;
  set (r3 := (q2 mod 64)%N) in *;
  set (k1 := (q1 / 64)%N) in *; set (k2 := (q2 / 64)%N) in *;
  clearbody k1 k2 r1 r2 r3; clearbody q1 q2 q3.

Lemma lead_length_cases (h : N) :
  ((h < 128)%N -> lead_length h = 1) /\
  ((128 <= h < 224)%N -> lead_length h = 2) /\
  ((224 <= h < 240)%N -> lead_length h = 3) /\
  ((240 <= h)%N -> lead_length h = 4).
Proof.
  unfold lead_length.
  destruct (N.ltb_spec h 128), (N.ltb_spec h 224), (N.ltb_spec h 240);
    repeat split; intros; (reflexivity || lia).
Qed.

Lemma utf8_values_length (c : codepoint) :
  (c <= 0x10FFFF)%N ->
  length (utf8_values c) = lead_length (hd 0%N (utf8_values c)).
Proof.
  intros Hc. unfold utf8_values.
  division_facts c. name_divisions c.
  destruct (N.ltb_spec c 0x80); cbn [hd length].
  { symmetry. now apply lead_length_cases. }
  destruct (N.ltb_spec c 0x800); cbn [hd length].
  { symmetry. apply lead_length_cases. lia. }
  destruct (N.ltb_spec c 0x10000); cbn [hd length].
  { symmetry. apply lead_length_cases. lia. }
  symmetry. apply lead_length_cases. lia.
Qed.

Lemma utf8_values_value (c : codepoint) : value_of (utf8_values c) = c.
Proof.
  unfold utf8_values, value_of. division_facts c. name_divisions c.
  destruct (c <? 0x80)%N; [reflexivity|].
  destruct (c <? 0x800)%N eqn:L2.
  { apply N.ltb_lt in L2. lia. }
  apply N.ltb_ge in L2.
  destruct (c <? 0x10000)%N eqn:L3.
  { apply N.ltb_lt in L3. lia. }
  apply N.ltb_ge in L3. lia.
Qed.

Lemma utf8_values_nonempty (c : codepoint) : utf8_values c <> [].
Proof.
  unfold utf8_values.
  destruct (c <? 0x80)%N; [discriminate|].
  destruct (c <? 0x800)%N; [discriminate|].
  destruct (c <? 0x10000)%N; discriminate.
Qed.

Lemma to_N_byte_of_N (v : N) : (v < 256)%N -> Byte.to_N (byte_of_N v) = v.
Proof.
  intros Hv. unfold byte_of_N.
  destruct (Byte.of_N v) as [b|] eqn:E.
  - now apply Byte.to_of_N.
  - apply Byte.of_N_None_iff in E. lia.
Qed.

Lemma map_to_N_byte_of_N (vs : list N) :
  Forall (fun v => (v < 256)%N) vs ->
  map Byte.to_N (map byte_of_N vs) = vs.
Proof.
  induction 1 as [|v vs Hv _ IH]; cbn [map]; [reflexivity|].
  now rewrite to_N_byte_of_N, IH.
Qed.

Lemma app_inj_length {A} (l1 l2 r1 r2 : list A) :
  length l1 = length l2 -> l1 ++ r1 = l2 ++ r2 -> l1 = l2 /\ r1 = r2.
Proof.
  revert l2.
  induction l1 as [|x l1 IH]; intros [|y l2] Hlen E;
    try discriminate; cbn [app] in *.
  - auto.
  - injection E as -> E. injection Hlen as Hlen.
    destruct (IH _ Hlen E) as [-> ->]. auto.
Qed.

Lemma utf8_codepoint_app_inj (c1 c2 : codepoint) (l1 l2 r1 r2 : bytes) :
  utf8_codepoint c1 = Return l1 ->
  utf8_codepoint c2 = Return l2 ->
  l1 ++ r1 = l2 ++ r2 ->
  c1 = c2 /\ r1 = r2.
Proof.
  intros H1 H2 E.
  assert (S1 : scalar c1) by (apply utf8_codepoint_scalar; eauto).
  assert (S2 : scalar c2) by (apply utf8_codepoint_scalar; eauto).
  destruct (utf8_codepoint_values _ H1) as [-> B1].
  destruct (utf8_codepoint_values _ H2) as [-> B2].
  assert (Hhd : hd 0%N (utf8_values c1) = hd 0%N (utf8_values c2)).
  { apply (f_equal (map Byte.to_N)) in E.
    rewrite !map_app, !map_to_N_byte_of_N in E by assumption.
    pose proof (utf8_values_nonempty c1). pose proof (utf8_values_nonempty c2).
    destruct (utf8_values c1), (utf8_values c2); try congruence.
    cbn [app hd] in *. now injection E. }
  assert (Hlen : length (utf8_values c1) = length (utf8_values c2)).
  { rewrite !utf8_values_length by (apply S1 || apply S2).
    now rewrite Hhd. }
  apply app_inj_length in E; [|now rewrite !length_map].
  destruct E as [E ->]. split; [|reflexivity].
  apply (f_equal (map Byte.to_N)) in E.
  rewrite !map_to_N_byte_of_N in E by assumption.
  rewrite <- (utf8_values_value c1), <- (utf8_values_value c2).
  now rewrite E.
Qed.

Lemma encode_utf8_inj (s1 s2 : str) (b : bytes) :
  encode_utf8 s1 = Return b -> encode_utf8 s2 = Return b -> s1 = s2.
Proof.
  revert s2 b.
  induction s1 as [|c1 s1 IH]; intros [|c2 s2] b; cbn [encode_utf8].
  - reflexivity.
  - intros H1. apply Return_inj in H1. subst b.
    destruct (utf8_codepoint c2) as [l2|] eqn:E2; [|discriminate].
    destruct (encode_utf8 s2) as [b2|]; [|discriminate].
    cbn [bind]. intros H. apply Return_inj in H.
    destruct (utf8_codepoint_values _ E2) as [-> _].
    pose proof (utf8_values_nonempty c2).
    destruct (utf8_values c2); [congruence|discriminate].
  - destruct (utf8_codepoint c1) as [l1|] eqn:E1; [|discriminate].
    destruct (encode_utf8 s1) as [b1|]; [|discriminate].
    cbn [bind]. intros H H2. apply Return_inj in H, H2. subst b.
    destruct (utf8_codepoint_values _ E1) as [-> _].
    pose proof (utf8_values_nonempty c1).
    destruct (utf8_values c1); [congruence|discriminate].
  - destruct (utf8_codepoint c1) as [l1|] eqn:E1; [|discriminate].
    destruct (encode_utf8 s1) as [b1|] eqn:F1; [|discriminate].
    destruct (utf8_codepoint c2) as [l2|] eqn:E2; [|discriminate].
    destruct (encode_utf8 s2) as [b2|] eqn:F2; [|discriminate].
    cbn [bind]. intros H1 H2. apply Return_inj in H1, H2. subst b.
    destruct (utf8_codepoint_app_inj _ _ _ _ E1 E2 (eq_sym H2)) as [-> ->].
    f_equal. now apply (IH s2 b2).
Qed.

(** ** Further properties of the encoding *)

Lemma decode_prefix_serialized (b : bytes) (tail : list str) :
  decode_prefix (serialized b ++ tail) = Some (b, tail).
Proof.
  unfold serialized, decode_prefix. rewrite <- app_comm_cons.
  rewrite word_value_str_of_nat, Nat2N.id.
  rewrite <- app_assoc.
  rewrite firstn_app, skipn_app, length_full_words, Nat.sub_diag.
  rewrite firstn_all2, skipn_all2 by (rewrite length_full_words; lia).
  cbn [firstn skipn]. rewrite app_nil_r, app_nil_l.
  unfold full_words at 1.
  rewrite values_full_words by apply seq_below.
  destruct (decode_pending b) as (pw & pl & p & n & -> & Hpw & Hpl & -> & ->).
  change ([pw; pl] ++ tail) with (pw :: pl :: tail).
  cbv beta iota. rewrite Hpw, Hpl.
  rewrite to_be_bytes_chunks by apply seq_below.
  rewrite Nat2N.id, <- (length_rest b), to_be_bytes_be_value.
  do 2 f_equal. apply chunks_and_rest.
Qed.

Lemma serialized_app_inj (b1 b2 : bytes) (t1 t2 : list str) :
  serialized b1 ++ t1 = serialized b2 ++ t2 -> b1 = b2 /\ t1 = t2.
Proof.
  intros E.
  pose proof (decode_prefix_serialized b1 t1) as H1.
  rewrite E, decode_prefix_serialized in H1.
  inversion H1. auto.
Qed.

Lemma encode_bytearray_inv (s : str) (ws : list str) :
  encode_bytearray s = Return ws ->
  exists b, encode_utf8 s = Return b /\ ws = serialized b.
Proof.
  rewrite encode_bytearray_serialized.
  destruct (encode_utf8 s) as [b|e]; cbn [bind]; [|discriminate].
  intros H. inversion H. eauto.
Qed.

(** X1. [encode_bytearray] is injective: two texts that are serialised
    to the same words are the same text. *)
Theorem encode_bytearray_injective (s1 s2 : str) (ws : list str) :
  encode_bytearray s1 = Return ws ->
  encode_bytearray s2 = Return ws ->
  s1 = s2.
Proof.
  intros H1 H2.
  apply encode_bytearray_inv in H1, H2.
  destruct H1 as (b1 & E1 & W1), H2 as (b2 & E2 & W2).
  assert (b1 = b2) as <-.
  { apply (@serialized_app_inj b1 b2 [] []).
    rewrite !app_nil_r. congruence. }
  exact (encode_utf8_inj _ _ E1 E2).
Qed.

Lemma encode_bytearray_injective_hello :
  encode_bytearray hello = Return [lit "0"; lit "0x68656c6c6f"; lit "5"] /\
  hello = [104; 101; 108; 108; 111]%N.
Proof.
  split; [reflexivity|].
  apply (@encode_bytearray_injective hello [104; 101; 108; 108; 111]%N
           [lit "0"; lit "0x68656c6c6f"; lit "5"]); reflexivity.
Defined.

Lemma be_value_bound (b : bytes) : (be_value b < 256 ^ N.of_nat (length b))%N.
Proof.
  induction b as [|x b IH] using rev_ind; [reflexivity|].
  rewrite be_value_snoc, length_app, Nat.add_comm. cbn [length Nat.add].
  rewrite Nat2N.inj_succ, N.pow_succ_r'.
  pose proof (Byte.to_N_bounded x). nia.
Qed.

Lemma pending_words_inv (b : bytes) (w : str) :
  In w (pending_words b) ->
  exists v, word_value w = Some v /\ (v < 256 ^ 30)%N.
Proof.
  destruct (decode_pending b) as (pw & pl & p & n & -> & Hpw & Hpl & -> & ->).
  assert (Hlt : length b mod 31 < 31) by (apply Nat.mod_upper_bound; lia).
  intros [<-|[<-|[]]].
  - eexists. split; [exact Hpw|].
    eapply N.lt_le_trans; [apply be_value_bound|].
    rewrite length_rest. apply N.pow_le_mono_r; lia.
  - eexists. split; [exact Hpl|].
    apply N.lt_trans with 31%N; [lia|reflexivity].
Qed.

(** X2. Every word after the count, that is every full word, the pending
    word and the pending length, has a value below 2^248: the words fit
    the 252-bit field of the target chain with nothing cut off. *)
Theorem encode_bytearray_words_fit (s : str) (ws : list str) (w : str) :
  encode_bytearray s = Return ws ->
  In w (tl ws) ->
  exists v, word_value w = Some v /\ (v < 2 ^ 248)%N.
Proof.
  intros H Hin.
  apply encode_bytearray_inv in H. destruct H as (b & _ & ->).
  unfold serialized in Hin. cbn [tl] in Hin.
  apply in_app_or in Hin. destruct Hin as [Hin|Hin].
  - unfold full_words in Hin. apply in_map_iff in Hin.
    destruct Hin as (i & <- & Hi). apply in_seq in Hi.
    assert (Hi' : i < length b / 31) by lia.
    exists (be_value (chunk b i)). split.
    + now apply word_value_full_word.
    + pose proof (be_value_bound (chunk b i)) as Hb.
      rewrite (length_chunk b Hi') in Hb. exact Hb.
  - destruct (pending_words_inv b w Hin) as (v & Hv & Hlt).
    exists v. split; [exact Hv|].
    eapply N.lt_trans; [exact Hlt|reflexivity].
Qed.

Lemma encode_bytearray_words_fit_euro :
  encode_bytearray text_euro =
    Return [lit "1";
            lit "0x616161616161616161616161616161616161616161616161616161616161e2";
            lit "0x82ac62"; lit "3"] /\
  exists v, word_value (lit "0x82ac62") = Some v /\ (v < 2 ^ 248)%N.
Proof.
  split; [reflexivity|].
  apply (@encode_bytearray_words_fit text_euro _ (lit "0x82ac62") eq_refl).
  right. left. reflexivity.
Defined.

Lemma forallb_digits (d : uint) : forallb word_char (digits d) = true.
Proof. induction d; cbn [digits forallb]; try rewrite IHd; reflexivity. Qed.

Lemma forallb_hex (b : bytes) : forallb word_char (hex b) = true.
Proof.
  induction b as [|x b IH]; [reflexivity|].
  unfold hex in *. cbn [flat_map]. rewrite forallb_app, IH, andb_true_r.
  destruct x; reflexivity.
Qed.

Lemma forallb_hex_word (b : bytes) :
  forallb word_char (lit "0x" ++ hex b) = true.
Proof. rewrite forallb_app, forallb_hex. reflexivity. Qed.

(** X3. The words of an encoded text are written with decimal digits,
    the letters [a] to [f] and [x] only, and none is empty: no word has
    white space or starts with a dash. *)
Theorem encode_bytearray_alphabet (s : str) (ws : list str) (w : str) :
  encode_bytearray s = Return ws ->
  In w ws ->
  w <> [] /\ forallb word_char w = true.
Proof.
  intros H Hin.
  apply encode_bytearray_inv in H. destruct H as (b & _ & ->).
  unfold serialized in Hin. destruct Hin as [<-|Hin].
  - rewrite numeral_of_nat. split; [|apply forallb_digits].
    destruct (N.of_nat (length b / 31)) as [|p]; [discriminate|].
    cbn [N.to_uint]. intros E.
    apply (DecimalPos.Unsigned.to_uint_nonnil p).
    destruct (Pos.to_uint p); (reflexivity || discriminate).
  - apply in_app_or in Hin. destruct Hin as [Hin|Hin].
    + unfold full_words in Hin. apply in_map_iff in Hin.
      destruct Hin as (i & <- & _). unfold full_word.
      split; [discriminate|apply forallb_hex_word].
    + unfold pending_words in Hin.
      destruct (0 <? length b mod 31) eqn:Hp.
      * destruct Hin as [<-|[<-|[]]].
        -- split; [discriminate|apply forallb_hex_word].
        -- rewrite numeral_of_nat. split; [|apply forallb_digits].
           apply Nat.ltb_lt in Hp.
           destruct (N.of_nat (length b mod 31)) as [|p] eqn:E; [lia|].
           cbn [N.to_uint]. intros E'.
           apply (DecimalPos.Unsigned.to_uint_nonnil p).
           destruct (Pos.to_uint p); (reflexivity || discriminate).
      * destruct Hin as [<-|[<-|[]]]; split; (discriminate || reflexivity).
Qed.

Lemma encode_bytearray_alphabet_hello :
  encode_bytearray hello = Return [lit "0"; lit "0x68656c6c6f"; lit "5"] /\
  lit "0x68656c6c6f" <> [] /\
  forallb word_char (lit "0x68656c6c6f") = true.
Proof.
  split; [reflexivity|].
  apply (@encode_bytearray_alphabet hello _ (lit "0x68656c6c6f") eq_refl).
  right. left. reflexivity.
Defined.

(** ** Further properties of the constructor calldata *)

Lemma length_serialized (b : bytes) : length (serialized b) = length b / 31 + 3.
Proof.
  unfold serialized. cbn [length].
  rewrite length_app, length_full_words, length_pending_words. lia.
Qed.

Lemma length_optional_words (o : option str) :
  length (optional_words o) = optional_size o.
Proof. destruct o as [[|c a]|]; reflexivity. Qed.

(** X4. When the three texts can be encoded and [royalty_fraction] has
    no more digits than the interpreter converts, the number of calldata
    words is the number of full 31-byte words of the three texts plus 11,
    plus one for each optional address that is carried: at least 13
    words, whatever the texts. *)
Theorem build_constructor_calldata_size (config : DeploymentConfig)
    (b1 b2 b3 : bytes) :
  encode_utf8 (name config) = Return b1 ->
  encode_utf8 (symbol config) = Return b2 ->
  encode_utf8 (base_uri config) = Return b3 ->
  exceeds_max_str_digits (royalty_fraction config) = false ->
  exists ws,
    build_constructor_calldata config =
    Return (length b1 / 31 + length b2 / 31 + length b3 / 31 + 11
              + optional_size (game_registry_address config)
              + optional_size (event_relayer_address config), ws).
Proof.
  intros H1 H2 H3 H4.
  rewrite build_constructor_calldata_words.
  rewrite (encode_bytearray_return _ H1), (encode_bytearray_return _ H2),
    (encode_bytearray_return _ H3), (str_of_int_fits _ H4).
  cbn [bind]. cbv zeta. eexists. f_equal. f_equal.
  unfold calldata_words.
  rewrite !length_app, !length_serialized, !length_optional_words.
  cbn [length]. lia.
Qed.

Lemma build_constructor_calldata_size_default :
  exists ws,
    build_constructor_calldata default_config = Return (0 + 0 + 1 + 11 + 2 + 1, ws).
Proof.
  apply (@build_constructor_calldata_size default_config
           _ _ _ eq_refl eq_refl eq_refl eq_refl).
Defined.

(** X20. When the three texts can be encoded and [royalty_fraction] has
    more digits than the interpreter converts, [build_constructor_calldata]
    raises [ValueError], at [str(config.royalty_fraction)]. *)
Theorem build_constructor_calldata_value_error (config : DeploymentConfig) :
  encodable (name config) ->
  encodable (symbol config) ->
  encodable (base_uri config) ->
  exceeds_max_str_digits (royalty_fraction config) = true ->
  build_constructor_calldata config = Raise ValueError.
Proof.
  intros H1 H2 H3 H4.
  apply encode_bytearray_encodable in H1, H2, H3.
  destruct H1 as [e1 H1], H2 as [e2 H2], H3 as [e3 H3].
  rewrite build_constructor_calldata_words, H1, H2, H3.
  now rewrite (str_of_int_exceeds _ H4).
Qed.

Lemma build_constructor_calldata_value_error_too_long :
  build_constructor_calldata (with_numbers too_long 0 default_config)
  = Raise ValueError.
Proof.
  apply (@build_constructor_calldata_value_error
           (with_numbers too_long 0 default_config));
    try apply scalar_lit.
  vm_compute. reflexivity.
Defined.

Lemma digits_inj (d1 d2 : uint) : digits d1 = digits d2 -> d1 = d2.
Proof.
  intros E. apply (f_equal uint_of_digits) in E.
  rewrite !uint_of_digits_digits in E. now inversion E.
Qed.

Lemma digits_no_sign (d : uint) (l : str) : digits d <> 45%N :: l.
Proof. destruct d; discriminate. Qed.

Lemma numeral_inj (z1 z2 : Z) : numeral z1 = numeral z2 -> z1 = z2.
Proof.
  unfold numeral. intros E.
  apply DecimalZ.to_int_inj.
  destruct (Z.to_int z1) as [d1|d1], (Z.to_int z2) as [d2|d2].
  - f_equal. now apply digits_inj.
  - now apply digits_no_sign in E.
  - symmetry in E. now apply digits_no_sign in E.
  - f_equal. apply digits_inj. now inversion E.
Qed.

Lemma optional_words_app_inj (o1 o2 : option str) (t1 t2 : list str) :
  optional_words o1 ++ t1 = optional_words o2 ++ t2 ->
  effective o1 = effective o2 /\ t1 = t2.
Proof.
  destruct o1 as [[|c1 a1]|], o2 as [[|c2 a2]|];
    cbn [optional_words effective truthy app]; intros E;
    inversion E; subst; auto.
Qed.

(** X5. The calldata determines what was encoded: two records with the
    same calldata have the same name, symbol and base URI, the same
    royalty receiver and fraction, and the same optional addresses, an
    empty address counting as none. *)
Theorem build_constructor_calldata_injective (c1 c2 : DeploymentConfig)
    (n1 n2 : nat) (ws : list str) :
  build_constructor_calldata c1 = Return (n1, ws) ->
  build_constructor_calldata c2 = Return (n2, ws) ->
  name c1 = name c2 /\
  symbol c1 = symbol c2 /\
  base_uri c1 = base_uri c2 /\
  royalty_receiver c1 = royalty_receiver c2 /\
  royalty_fraction c1 = royalty_fraction c2 /\
  effective (game_registry_address c1) = effective (game_registry_address c2) /\
  effective (event_relayer_address c1) = effective (event_relayer_address c2).
Proof.
  intros H1 H2.
  apply build_constructor_calldata_inv in H1, H2.
  destruct H1 as (x1 & x2 & x3 & X1 & X2 & X3 & W1 & _).
  destruct H2 as (y1 & y2 & y3 & Y1 & Y2 & Y3 & W2 & _).
  apply encode_bytearray_inv in X1, X2, X3, Y1, Y2, Y3.
  destruct X1 as (a1 & A1 & ->), X2 as (a2 & A2 & ->), X3 as (a3 & A3 & ->).
  destruct Y1 as (b1 & B1 & ->), Y2 as (b2 & B2 & ->), Y3 as (b3 & B3 & ->).
  rewrite W1 in W2. unfold calldata_words in W2.
  apply serialized_app_inj in W2. destruct W2 as [<- W2].
  apply serialized_app_inj in W2. destruct W2 as [<- W2].
  apply serialized_app_inj in W2. destruct W2 as [<- W2].
  cbn [app] in W2. inversion W2 as [[R F W3]].
  apply numeral_inj in F.
  apply optional_words_app_inj in W3. destruct W3 as [G W3].
  rewrite <- (app_nil_r (optional_words (event_relayer_address c1))) in W3.
  rewrite <- (app_nil_r (optional_words (event_relayer_address c2))) in W3.
  apply optional_words_app_inj in W3. destruct W3 as [E _].
  pose proof (encode_utf8_inj _ _ A1 B1).
  pose proof (encode_utf8_inj _ _ A2 B2).
  pose proof (encode_utf8_inj _ _ A3 B3).
  repeat split; assumption.
Qed.

Lemma build_constructor_calldata_injective_relayer :
  build_constructor_calldata default_config =
    Return (15, default_calldata_words) /\
  build_constructor_calldata empty_relayer_config =
    Return (15, default_calldata_words) /\
  effective (event_relayer_address default_config) =
  effective (event_relayer_address empty_relayer_config).
Proof.
  split; [reflexivity|]. split; [reflexivity|].
  apply (@build_constructor_calldata_injective
           default_config empty_relayer_config 15 15 default_calldata_words);
    reflexivity.
Defined.

(** ** Facts about text search and splitting *)











Example split_overlap : split (lit "aa") (lit "aaa") = [[]; lit "a"].
Proof. reflexivity. Qed.

Example split_empty_pieces :
  split (lit ",") (lit "a,b,,c") = [lit "a"; lit "b"; []; lit "c"].
Proof. reflexivity. Qed.

Example split_empty_text : split nl [] = [[]].
Proof. reflexivity. Qed.

Example split_label :
  split (lit "Transaction Hash:")
    (lit "xTransaction Hash: a Transaction Hash: b")
  = [lit "x"; lit " a "; lit " b"].
Proof. reflexivity. Qed.

Example strip_both_ends : strip (lit "  x y " ++ nl) = lit "x y".
Proof. reflexivity. Qed.

Example contains_samples :
  contains (lit "Game") (lit "ProvableGameToken") = true /\
  contains (lit "game") (lit "ProvableGameToken") = false /\
  contains [] [] = true.
Proof. repeat split; reflexivity. Qed.

(** ** Stripping *)







(** ** The transaction hash *)





(** ** [deploy_via_udc] *)

Section Deploy.

Variable subprocess_run : trace -> command -> outcome completed.

Lemma deploy_via_udc_raise (config : DeploymentConfig) (e : exn) (t : trace) :
  build_constructor_calldata config = Raise e ->
  deploy_via_udc subprocess_run config t = (Exn (EncodeError e), t).
Proof.
  intros H. unfold deploy_via_udc, io_bind, of_exc. now rewrite H.
Qed.




Lemma encode_bytearray_exn (s : str) (e : exn) :
  encode_bytearray s = Raise e -> e = UnicodeEncodeError.
Proof.
  rewrite encode_bytearray_serialized.
  destruct (encode_utf8 s) as [b|e1] eqn:E; cbn [bind]; [discriminate|].
  intros H. apply (encode_utf8_exn s). congruence.
Qed.

Lemma build_raises (config : DeploymentConfig) :
  ~ encodable (name config) \/ ~ encodable (symbol config)
    \/ ~ encodable (base_uri config) ->
  build_constructor_calldata config = Raise UnicodeEncodeError.
Proof.
  intros H. rewrite build_constructor_calldata_words.
  destruct (encode_bytearray (name config)) as [e1|x] eqn:E1;
    [|now rewrite (encode_bytearray_exn _ E1)].
  destruct (encode_bytearray (symbol config)) as [e2|x] eqn:E2;
    [|now rewrite (encode_bytearray_exn _ E2)].
  destruct (encode_bytearray (base_uri config)) as [e3|x] eqn:E3;
    [|now rewrite (encode_bytearray_exn _ E3)].
  exfalso. destruct H as [H|[H|H]]; apply H;
    apply encode_bytearray_encodable; eauto.
Qed.

(** X6. When one of the three texts cannot be encoded, [deploy_via_udc]
    raises before it has printed anything or run any process. *)
Theorem deploy_via_udc_encoding_failure (config : DeploymentConfig)
    (t : trace) :
  ~ encodable (name config) \/ ~ encodable (symbol config)
    \/ ~ encodable (base_uri config) ->
  deploy_via_udc subprocess_run config t
  = (Exn (EncodeError UnicodeEncodeError), t).
Proof.
  intros H. apply deploy_via_udc_raise. now apply build_raises.
Qed.

(** X21. When the constructor calldata is built and [salt] has more
    digits than the interpreter converts, [deploy_via_udc] raises
    [ValueError], at [str(config.salt)], before it has printed anything
    or run any process. *)
Theorem deploy_via_udc_salt_failure (config : DeploymentConfig)
    (n : nat) (ws : list str) (t : trace) :
  build_constructor_calldata config = Return (n, ws) ->
  exceeds_max_str_digits (salt config) = true ->
  deploy_via_udc subprocess_run config t = (Exn (EncodeError ValueError), t).
Proof.
  intros H Hsalt. unfold deploy_via_udc, io_bind, of_exc.
  now rewrite H, (str_of_int_exceeds _ Hsalt).
Qed.


End Deploy.

Lemma deploy_via_udc_encoding_failure_surrogate :
  deploy_via_udc (fun _ _ => Exn FileNotFoundError)
    (with_texts lone_surrogate (lit "PGT") [] default_config) []
  = (Exn (EncodeError UnicodeEncodeError), []).
Proof.
  apply deploy_via_udc_encoding_failure.
  left. intros H. inversion H as [|c s [_ Hc] Hs]. discriminate.
Defined.

Lemma deploy_via_udc_salt_failure_too_long :
  build_constructor_calldata (with_numbers 500 too_long default_config)
    = Return (15, default_calldata_words) /\
  deploy_via_udc (fun _ _ => Exn FileNotFoundError)
    (with_numbers 500 too_long default_config) []
  = (Exn (EncodeError ValueError), []).
Proof.
  split; [reflexivity|].
  apply (@deploy_via_udc_salt_failure (fun _ _ => Exn FileNotFoundError)
           (with_numbers 500 too_long default_config)
           15 default_calldata_words [] eq_refl).
  vm_compute. reflexivity.
Defined.



Example deploy_sample :
  fst (deploy_via_udc
         (fun _ _ => Val {| stdout := sample_output; stderr := [] |})
         default_config [])
  = Val (true, lit "0x05e1f3", []).
Proof. vm_compute. reflexivity. Qed.



(** ** The line with the hash *)














(** ** [verify_deployment] *)

Lemma Val_inj {A} (a b : A) : @Val A a = Val b -> a = b.
Proof. intros H. now inversion H. Qed.

Lemma written_app (t1 t2 : trace) :
  written (t1 ++ t2) = written t1 ++ written t2.
Proof. apply flat_map_app. Qed.

Lemma printed_app (t1 t2 : trace) :
  printed (t1 ++ t2) = printed t1 ++ printed t2.
Proof. apply flat_map_app. Qed.





(** ** The receipt *)

Lemma has_nonempty_true (key : str) (obj : value) :
  has_nonempty key obj = Val true ->
  exists entries item n,
    obj = VDict entries /\ lookup key entries = Some item /\
    py_len item = Val (S n).
Proof.
  unfold has_nonempty, outcome_bind, py_in, getitem_key.
  destruct obj as [| | | | s | items | entries]; try discriminate.
  - destruct (contains key s); discriminate.
  - destruct (existsb (is_str key) items); discriminate.
  - destruct (lookup key entries) as [item|] eqn:E; [|discriminate].
    destruct (py_len item) as [[|n]|] eqn:L; try discriminate.
    intros _. exists entries, item, n. auto.
Qed.

Lemma has_nonempty_dict (key : str) (entries : list (str * value)) :
  has_nonempty key (VDict entries) =
  match lookup key entries with
  | None => Val false
  | Some item =>
      match py_len item with
      | Val n => Val (0 <? n)
      | Exn e => Exn e
      end
  end.
Proof.
  unfold has_nonempty, outcome_bind, py_in, getitem_key.
  destruct (lookup key entries); reflexivity.
Qed.

Lemma has_nonempty_char (c : codepoint) :
  has_nonempty (lit "data") (VStr [c]) = Val false.
Proof.
  unfold has_nonempty, outcome_bind, py_in.
  replace (contains (lit "data") [c]) with false; [reflexivity|].
  cbn. now rewrite !andb_false_r.
Qed.

(** X12. [receipt_address] gives an address only for a receipt that is
    an object whose ["events"] is a list whose first item is an object
    with a non-empty ["data"]: the address is the first item of that
    list or, when ["data"] is a text, its first character. *)
Theorem receipt_address_some (receipt a : value) :
  receipt_address receipt = Val (Some a) ->
  exists entries event rest,
    receipt = VDict entries /\
    lookup (lit "events") entries = Some (VList (VDict event :: rest)) /\
    ((exists more, lookup (lit "data") event = Some (VList (a :: more))) \/
     (exists c more,
         lookup (lit "data") event = Some (VStr (c :: more)) /\
         a = VStr [c])).
Proof.
  unfold receipt_address.
  destruct (has_nonempty (lit "events") receipt) as [[|]|] eqn:H1;
    cbn [outcome_bind]; try discriminate.
  destruct (has_nonempty_true _ _ H1) as (entries & ev & n & -> & E & L).
  cbn [getitem_key]. rewrite E. cbn [outcome_bind].
  destruct ev as [| | | | s | items | d]; try discriminate.
  - destruct s as [|c s]; [discriminate|].
    cbn [getitem_0 outcome_bind]. rewrite has_nonempty_char. discriminate.
  - destruct items as [|v rest]; [discriminate|].
    cbn [getitem_0 outcome_bind].
    destruct (has_nonempty (lit "data") v) as [[|]|] eqn:H2;
      cbn [outcome_bind]; try discriminate.
    destruct (has_nonempty_true _ _ H2) as (event & d & m & -> & E2 & L2).
    cbn [getitem_key]. rewrite E2. cbn [outcome_bind].
    intros H. exists entries, event, rest.
    split; [reflexivity|]. split; [exact E|].
    destruct d as [| | | | s | items | d]; try discriminate.
    + destruct s as [|c s]; [discriminate|].
      cbn [getitem_0 outcome_bind] in H. apply Val_inj in H.
      injection H as <-. right. exists c, s. split; [exact E2|reflexivity].
    + destruct items as [|x more]; [discriminate|].
      cbn [getitem_0 outcome_bind] in H. apply Val_inj in H.
      injection H as <-. left. exists more. exact E2.
Qed.

Lemma receipt_address_some_sample :
  receipt_address sample_receipt = Val (Some (VStr (lit "0x07c2"))) /\
  exists entries event rest,
    sample_receipt = VDict entries /\
    lookup (lit "events") entries = Some (VList (VDict event :: rest)) /\
    ((exists more,
         lookup (lit "data") event
         = Some (VList (VStr (lit "0x07c2") :: more))) \/
     (exists c more,
         lookup (lit "data") event = Some (VStr (c :: more)) /\
         VStr (lit "0x07c2") = VStr [c])).
Proof.
  split; [reflexivity|].
  apply (@receipt_address_some sample_receipt (VStr (lit "0x07c2"))).
  reflexivity.
Defined.

(** X13. On a receipt object a missing ["events"] key, an empty event
    list, a first event without ["data"] and an empty data list all give
    [None], not an exception; otherwise the first data item of the first
    event is returned. *)
Theorem receipt_address_object (entries : list (str * value)) :
  (lookup (lit "events") entries = None ->
   receipt_address (VDict entries) = Val None) /\
  (lookup (lit "events") entries = Some (VList []) ->
   receipt_address (VDict entries) = Val None) /\
  (forall event rest,
      lookup (lit "events") entries = Some (VList (VDict event :: rest)) ->
      (lookup (lit "data") event = None ->
       receipt_address (VDict entries) = Val None) /\
      (lookup (lit "data") event = Some (VList []) ->
       receipt_address (VDict entries) = Val None) /\
      (forall a more,
          lookup (lit "data") event = Some (VList (a :: more)) ->
          receipt_address (VDict entries) = Val (Some a))).
Proof.
  unfold receipt_address. rewrite has_nonempty_dict.
  split; [|split].
  - intros ->. reflexivity.
  - intros ->. reflexivity.
  - intros event rest E. rewrite E.
    cbn [py_len length Nat.ltb Nat.leb outcome_bind getitem_key].
    rewrite E. cbn [outcome_bind getitem_0]. rewrite has_nonempty_dict.
    split; [|split].
    + intros ->. reflexivity.
    + intros ->. reflexivity.
    + intros a more D. rewrite D.
      cbn [py_len length Nat.ltb Nat.leb outcome_bind getitem_key].
      rewrite D. reflexivity.
Qed.

Lemma receipt_address_object_sample :
  receipt_address (VDict [(lit "type", VStr (lit "INVOKE"))]) = Val None.
Proof.
  apply (proj1 (receipt_address_object [(lit "type", VStr (lit "INVOKE"))])).
  reflexivity.
Defined.

Lemma only_uncaught_bind {A B} (m : outcome A) (k : A -> outcome B) :
  only_uncaught m -> (forall a, only_uncaught (k a)) ->
  only_uncaught (outcome_bind m k).
Proof.
  intros Hm Hk e. destruct m as [a|e']; cbn [outcome_bind].
  - apply Hk.
  - intros [= <-]. now apply Hm.
Qed.

Lemma only_uncaught_val {A} (a : A) : only_uncaught (Val a).
Proof. intros e H. discriminate. Qed.

Lemma only_uncaught_py_in (key : str) (obj : value) :
  only_uncaught (py_in key obj).
Proof. intros e. destruct obj; cbn; intros [= <-] || discriminate; reflexivity. Qed.

Lemma only_uncaught_getitem_key (obj : value) (key : str) :
  only_uncaught (getitem_key obj key).
Proof.
  intros e. destruct obj; cbn [getitem_key];
    try (intros [= <-]; reflexivity).
  destruct (lookup key entries); [discriminate|intros [= <-]; reflexivity].
Qed.

Lemma only_uncaught_getitem_0 (obj : value) : only_uncaught (getitem_0 obj).
Proof.
  intros e. destruct obj as [| | | | [|] | [|] | ]; cbn [getitem_0];
    intros [= <-] || discriminate; reflexivity.
Qed.

Lemma only_uncaught_py_len (obj : value) : only_uncaught (py_len obj).
Proof.
  intros e. destruct obj; cbn [py_len];
    intros [= <-] || discriminate; reflexivity.
Qed.

Lemma only_uncaught_has_nonempty (key : str) (obj : value) :
  only_uncaught (has_nonempty key obj).
Proof.
  unfold has_nonempty.
  apply only_uncaught_bind; [apply only_uncaught_py_in|].
  intros [|]; [|apply only_uncaught_val].
  apply only_uncaught_bind; [apply only_uncaught_getitem_key|]. intros item.
  apply only_uncaught_bind; [apply only_uncaught_py_len|]. intros n.
  apply only_uncaught_val.
Qed.

(** The exceptions of a malformed receipt are none of those the loop
    catches. *)
Lemma only_uncaught_receipt_address (receipt : value) :
  only_uncaught (receipt_address receipt).
Proof.
  unfold receipt_address.
  apply only_uncaught_bind; [apply only_uncaught_has_nonempty|].
  intros [|]; [|apply only_uncaught_val].
  apply only_uncaught_bind; [apply only_uncaught_getitem_key|]. intros events.
  apply only_uncaught_bind; [apply only_uncaught_getitem_0|]. intros ev.
  apply only_uncaught_bind; [apply only_uncaught_has_nonempty|].
  intros [|]; [|apply only_uncaught_val].
  apply only_uncaught_bind; [apply only_uncaught_getitem_key|]. intros data.
  apply only_uncaught_bind; [apply only_uncaught_getitem_0|]. intros a.
  apply only_uncaught_val.
Qed.


(** ** [get_contract_address_from_tx] *)

Section Fetch.

Variable subprocess_run : trace -> command -> outcome completed.
Variable json_loads : str -> outcome value.

Lemma fetch_receipt_cases (starkli_path tx_hash : str) (t : trace) :
  let c := starkli_receipt starkli_path tx_hash in
  fetch_receipt subprocess_run json_loads starkli_path tx_hash t =
  (match subprocess_run t c with
   | Val result =>
       match json_loads (stdout result) with
       | Val receipt => receipt_address receipt
       | Exn e => Exn e
       end
   | Exn e => Exn e
   end, t ++ [Ran c]).
Proof.
  intros c. subst c.
  unfold starkli_receipt, fetch_receipt, io_bind, run, of_outcome.
  destruct (subprocess_run t _) as [result|e]; [|reflexivity].
  destruct (json_loads (stdout result)) as [receipt|e]; reflexivity.
Qed.

Lemma try_paths_cons (starkli_path : str) (rest : list str)
    (tx_hash : str) (t : trace) :
  try_paths subprocess_run json_loads (starkli_path :: rest) tx_hash t =
  match fetch_receipt subprocess_run json_loads starkli_path tx_hash t with
  | (Exn e, t') =>
      if caught e
      then try_paths subprocess_run json_loads rest tx_hash t'
      else (Exn e, t')
  | r => r
  end.
Proof. reflexivity. Qed.


(** X14. When the first [starkli] run completes and prints JSON, the
    receipt alone decides the result, be it an address, [None] or an
    exception of a malformed receipt: the second path is not tried and
    the manual instructions are not printed. *)
Theorem get_contract_address_first_receipt
    (tx_hash profile : str) (t : trace)
    (result : completed) (receipt : value) :
  subprocess_run (t ++ [Printed (nl ++ lit "Fetching transaction receipt...")])
    (starkli_receipt (lit "/home/ubuntu/.starkli/bin/starkli") tx_hash)
  = Val result ->
  json_loads (stdout result) = Val receipt ->
  get_contract_address_from_tx subprocess_run json_loads tx_hash profile t
  = (receipt_address receipt,
     t ++ [ Printed (nl ++ lit "Fetching transaction receipt...");
            Ran (starkli_receipt (lit "/home/ubuntu/.starkli/bin/starkli")
                   tx_hash) ]).
Proof.
  intros Hrun Hjson.
  unfold get_contract_address_from_tx, io_bind at 1, print, starkli_paths.
  rewrite try_paths_cons, fetch_receipt_cases. cbv zeta.
  rewrite Hrun, Hjson, <- app_assoc.
  destruct (receipt_address receipt) as [r|e] eqn:E; [reflexivity|].
  now rewrite (only_uncaught_receipt_address receipt E).
Qed.


End Fetch.

Lemma get_contract_address_first_receipt_sample :
  get_contract_address_from_tx
    (fun _ _ => Val {| stdout := lit "{...}"; stderr := [] |})
    (fun _ => Val sample_receipt) (lit "0x05e1f3") (lit "default") []
  = (Val (Some (VStr (lit "0x07c2"))),
     [ Printed (nl ++ lit "Fetching transaction receipt...");
       Ran (starkli_receipt (lit "/home/ubuntu/.starkli/bin/starkli")
              (lit "0x05e1f3")) ]).
Proof.
  apply (@get_contract_address_first_receipt
           (fun _ _ => Val {| stdout := lit "{...}"; stderr := [] |})
           (fun _ => Val sample_receipt) (lit "0x05e1f3") (lit "default") []
           {| stdout := lit "{...}"; stderr := [] |} sample_receipt);
    reflexivity.
Defined.



(** ** [main] *)

Lemma optional_words_spec (o : option str) :
  o <> Some [] -> optional_words o = encode_optional o.
Proof.
  intros H. destruct o as [[|c a]|]; [|reflexivity|reflexivity].
  now contradiction H.
Qed.

Example default_args_config : config_of_args default_args = default_config.
Proof. reflexivity. Qed.

(** X16. [main] turns an empty [--game-registry] into [None], so for the
    record it builds the calldata gives both optional addresses as the
    specification words them, ["0"] and the address when present and
    ["1"] when absent, unless [--event-relayer] is the empty string. *)
Theorem main_config_calldata (args : Namespace) (n : nat) (ws : list str) :
  args_event_relayer args <> Some [] ->
  build_constructor_calldata (config_of_args args) = Return (n, ws) ->
  game_registry_address (config_of_args args) <> Some [] /\
  Spec.constructor_calldata (config_of_args args) = Return ws.
Proof.
  intros Hrelayer H.
  assert (Hregistry : game_registry_address (config_of_args args) <> Some []).
  { cbn [config_of_args game_registry_address].
    destruct (args_game_registry args); cbn [nonempty]; discriminate. }
  split; [exact Hregistry|].
  destruct (build_constructor_calldata_inv _ H)
    as (e1 & e2 & e3 & H1 & H2 & H3 & -> & _).
  unfold Spec.constructor_calldata, calldata_words.
  rewrite H1, H2, H3. cbn [bind].
  rewrite (optional_words_spec Hregistry).
  rewrite (@optional_words_spec (event_relayer_address (config_of_args args)))
    by exact Hrelayer.
  reflexivity.
Qed.

Lemma main_config_calldata_default :
  build_constructor_calldata (config_of_args default_args)
    = Return (15, default_calldata_words) /\
  Spec.constructor_calldata (config_of_args default_args)
    = Return default_calldata_words.
Proof.
  split; [reflexivity|].
  apply (@main_config_calldata default_args 15 default_calldata_words);
    [discriminate|reflexivity].
Defined.

(** *** Files *)

Lemma keeps_files_ret {A} (a : A) : keeps_files (io_ret a).
Proof. intros t. reflexivity. Qed.

Lemma keeps_files_raise {A} (e : error) : keeps_files (@io_raise A e).
Proof. intros t. reflexivity. Qed.

Lemma keeps_files_of_exc {A} (m : exc A) : keeps_files (of_exc m).
Proof. intros t. unfold of_exc. destruct m; reflexivity. Qed.

Lemma keeps_files_of_outcome {A} (m : outcome A) :
  keeps_files (of_outcome m).
Proof. intros t. reflexivity. Qed.

Lemma keeps_files_print (line : str) : keeps_files (print line).
Proof.
  intros t. unfold print. cbn [snd].
  rewrite written_app. apply app_nil_r.
Qed.

Lemma keeps_files_run
    (subprocess_run : trace -> command -> outcome completed) (c : command) :
  keeps_files (run subprocess_run c).
Proof.
  intros t. unfold run. cbn [snd].
  rewrite written_app. apply app_nil_r.
Qed.

Lemma keeps_files_bind {A B} (m : IO A) (k : A -> IO B) :
  keeps_files m -> (forall a, keeps_files (k a)) ->
  keeps_files (io_bind m k).
Proof.
  intros Hm Hk t. unfold io_bind.
  specialize (Hm t). destruct (m t) as [[a|e] t1]; cbn [snd] in *.
  - now rewrite Hk.
  - exact Hm.
Qed.

Lemma keeps_files_except {A} (body : IO A) (handler : str -> str -> IO A) :
  keeps_files body -> (forall a b, keeps_files (handler a b)) ->
  keeps_files (except_called_process_error body handler).
Proof.
  intros Hb Hh t. unfold except_called_process_error.
  specialize (Hb t). destruct (body t) as [[a|e] t1]; cbn [snd] in *.
  - exact Hb.
  - destruct e; cbn [snd]; try exact Hb. now rewrite Hh.
Qed.

Ltac keeps_files :=
  cbv zeta;
  repeat first
    [ apply keeps_files_ret | apply keeps_files_raise
    | apply keeps_files_of_exc | apply keeps_files_of_outcome
    | apply keeps_files_print | apply keeps_files_run
    | apply keeps_files_bind; [|intros ?]
    | apply keeps_files_except; [|intros ? ?]
    | match goal with
      | |- keeps_files (match ?x with _ => _ end) => destruct x
      end ].

Section Files.

Variable subprocess_run : trace -> command -> outcome completed.
Variable json_loads : str -> outcome value.

Lemma keeps_files_deploy (config : DeploymentConfig) :
  keeps_files (deploy_via_udc subprocess_run config).
Proof.
  unfold deploy_via_udc.
  apply keeps_files_bind; [apply keeps_files_of_exc|].
  intros [n ws]. keeps_files.
Qed.

Lemma keeps_files_verify (contract_address profile expected_name : str) :
  keeps_files (verify_deployment subprocess_run contract_address profile
                 expected_name).
Proof.
  unfold verify_deployment. keeps_files.
Qed.

Lemma keeps_files_fetch (starkli_path tx_hash : str) :
  keeps_files (fetch_receipt subprocess_run json_loads starkli_path tx_hash).
Proof. unfold fetch_receipt. keeps_files. Qed.

Lemma keeps_files_try_paths (paths : list str) (tx_hash : str) :
  keeps_files (try_paths subprocess_run json_loads paths tx_hash).
Proof.
  induction paths as [|p paths IH]; cbn [try_paths].
  - keeps_files.
  - intros t. pose proof (keeps_files_fetch p tx_hash t) as Hf.
    destruct (fetch_receipt subprocess_run json_loads p tx_hash t)
      as [[r|e] t1]; cbn [snd] in *; [exact Hf|].
    destruct (caught e); cbn [snd]; [|exact Hf].
    now rewrite IH.
Qed.

Lemma keeps_files_get_contract_address (tx_hash profile : str) :
  keeps_files (get_contract_address_from_tx subprocess_run json_loads
                 tx_hash profile).
Proof.
  unfold get_contract_address_from_tx.
  apply keeps_files_bind; [apply keeps_files_print|].
  intros _. apply keeps_files_try_paths.
Qed.

End Files.

Lemma writes_only_keeps {A} (allowed : bool -> list event -> Prop)
    (m : IO A) :
  keeps_files m -> (forall b, allowed b []) -> writes_only allowed m.
Proof.
  intros Hm H0 t. exists []. rewrite app_nil_r. split; [apply Hm|apply H0].
Qed.

Lemma writes_only_after {A B} (allowed : bool -> list event -> Prop)
    (m : IO A) (k : A -> IO B) :
  keeps_files m -> (forall a, writes_only allowed (k a)) ->
  allowed false [] ->
  writes_only allowed (io_bind m k).
Proof.
  intros Hm Hk H0 t. unfold io_bind.
  specialize (Hm t). destruct (m t) as [[a|e] t1]; cbn [snd] in *.
  - destruct (Hk a t1) as (w & E & Hw). exists w. now rewrite E, Hm.
  - exists []. rewrite app_nil_r. auto.
Qed.

Lemma writes_only_after_outcome {A B}
    (allowed : bool -> list event -> Prop)
    (o : outcome A) (k : A -> IO B) :
  (forall a, o = Val a -> writes_only allowed (k a)) ->
  allowed false [] ->
  writes_only allowed (io_bind (of_outcome o) k).
Proof.
  intros Hk H0 t. unfold io_bind, of_outcome.
  destruct o as [a|e].
  - exact (Hk a eq_refl t).
  - exists []. rewrite app_nil_r. auto.
Qed.

Lemma writes_only_before {A B} (allowed : bool -> list event -> Prop)
    (m : IO A) (k : A -> IO B) :
  writes_only allowed m -> (forall a, keeps_files (k a)) ->
  (forall w, allowed true w -> allowed false w) ->
  writes_only allowed (io_bind m k).
Proof.
  intros Hm Hk Hmono t. unfold io_bind.
  destruct (Hm t) as (w & E & Hw).
  destruct (m t) as [[a|e] t1]; cbn [fst snd returned] in *; exists w.
  - rewrite Hk. split; [exact E|].
    destruct (returned (fst (k a t1))); auto.
  - auto.
Qed.

Lemma deployment_details_failed (format : value -> outcome str)
    (config : DeploymentConfig) (w : list event) :
  deployment_details format config true w ->
  deployment_details format config false w.
Proof.
  intros [->|(address & text & tx_hash & Hv & Hf & H)]; [now left|].
  right. exists address, text, tx_hash.
  split; [exact Hv|]. split; [exact Hf|].
  destruct H as [[_ H]|(k & -> & _)]; [discriminate|].
  right. exists k. split; [reflexivity|discriminate].
Qed.

Lemma written_one (e : event) (t : trace) :
  written (t ++ [e]) =
  written t ++ match e with
               | Opened _ | Wrote _ _ | Closed _ => [e]
               | Printed _ | Ran _ => []
               end.
Proof. rewrite written_app. cbn [written flat_map]. now rewrite app_nil_r. Qed.

Section MainFiles.

Variable subprocess_run : trace -> command -> outcome completed.
Variable json_loads : str -> outcome value.
Variable format_percent : Z -> outcome str.
Variable repr_value : value -> outcome str.
Variable open_file : trace -> str -> outcome unit.
Variable write_file : trace -> str -> str -> outcome unit.
Variable close_file : trace -> str -> outcome unit.

Lemma keeps_files_verify_of (v : value) (profile expected_name : str) :
  keeps_files (verify_deployment_of subprocess_run repr_value v profile
                 expected_name).
Proof.
  destruct v; cbn [verify_deployment_of];
    try apply keeps_files_verify; keeps_files.
Qed.

(** The [with] block of [main]: the file is opened; the lines are handed
    to [f.write] one after the other until a call raises; the file is
    closed. *)
Lemma with_open_lines (config : DeploymentConfig) (v : value)
    (address_text tx_hash : str) :
  value_truthy v = true ->
  format_value repr_value v = Val address_text ->
  writes_only
    (deployment_details (format_value repr_value) config)
    (with_open open_file close_file latest_deployment
       (io_bind (of_outcome (format_value repr_value v)) (fun address_text =>
        io_bind (f_write write_file latest_deployment
                   (lit "Contract Address: " ++ address_text ++ nl)) (fun _ =>
        io_bind (f_write write_file latest_deployment
                   (lit "Transaction Hash: " ++ tx_hash ++ nl)) (fun _ =>
        io_bind (f_write write_file latest_deployment
                   (lit "Class Hash: " ++ class_hash config ++ nl)) (fun _ =>
        io_bind (f_write write_file latest_deployment
                   (lit "Name: " ++ name config ++ nl)) (fun _ =>
        f_write write_file latest_deployment
          (lit "Symbol: " ++ symbol config ++ nl)))))))).
Proof.
  intros Hv Hf t.
  unfold with_open, open_w, f_close, io_bind, f_write, of_outcome.
  rewrite Hf.
  repeat match goal with
         | |- context [match open_file ?t ?p with _ => _ end] =>
             destruct (open_file t p)
         | |- context [match write_file ?t ?p ?c with _ => _ end] =>
             destruct (write_file t p c)
         | |- context [match close_file ?t ?p with _ => _ end] =>
             destruct (close_file t p)
         end;
    cbn [fst snd returned]; rewrite !written_one, <- ?app_assoc;
    cbn [app];
    (eexists; split; [reflexivity|]);
    right; exists v, address_text, tx_hash;
    (split; [exact Hv|]); (split; [exact Hf|]);
    first
      [ left; split; reflexivity
      | right;
        first [ exists 0; split; [reflexivity|discriminate]
              | exists 1; split; [reflexivity|discriminate]
              | exists 2; split; [reflexivity|discriminate]
              | exists 3; split; [reflexivity|discriminate]
              | exists 4; split; [reflexivity|discriminate]
              | exists 5; split; reflexivity ] ].
Qed.

(** X17. Whatever the processes, [json.loads] and the file system
    answer, the only file [main] touches is [LATEST_DEPLOYMENT.txt]: it
    opens it at most once, for an address the receipt gave that counts
    as true; when the file could be opened, it hands the first [k] of
    the five lines (address, transaction hash, class hash, name and
    symbol) to [f.write], in order, and closes the file; when [main]
    returns, all five lines have been handed over, or the file has not
    been touched. *)
Theorem main_writes_only (args : Namespace) :
  writes_only
    (deployment_details (format_value repr_value) (config_of_args args))
    (main subprocess_run json_loads format_percent repr_value
       open_file write_file close_file args).
Proof.
  assert (H0 : forall b, deployment_details (format_value repr_value)
                           (config_of_args args) b []) by now left.
  unfold main. cbv zeta.
  repeat (apply writes_only_after;
          [first [apply keeps_files_print | apply keeps_files_of_outcome
                 | apply keeps_files_of_exc | apply keeps_files_deploy]
          | intros ? | apply H0]).
  match goal with
  | r : (bool * str * str)%type |- _ =>
      destruct r as [[success tx_hash] error_message]
  end.
  destruct success; cbn [negb].
  2:{ apply writes_only_keeps; [keeps_files|exact H0]. }
  repeat (apply writes_only_after;
          [first [apply keeps_files_print
                 | apply keeps_files_get_contract_address]
          | intros ? | apply H0]).
  apply writes_only_before;
    [|intros; keeps_files|apply deployment_details_failed].
  match goal with
  | r : option value |- _ => destruct r as [v|]
  end; [|apply writes_only_keeps; [keeps_files|exact H0]].
  destruct (value_truthy v) eqn:Hv;
    [|apply writes_only_keeps; [keeps_files|exact H0]].
  apply writes_only_after; [apply keeps_files_print|intros _|apply H0].
  apply writes_only_after_outcome; [intros address_text Hf|apply H0].
  repeat (apply writes_only_after;
          [first [apply keeps_files_print
                 | destruct (negb (args_no_verify args));
                   [apply keeps_files_bind;
                    [apply keeps_files_verify_of|intros; keeps_files]
                   |keeps_files]]
          | intros ? | apply H0]).
  apply writes_only_before;
    [|intros; keeps_files|apply deployment_details_failed].
  now apply with_open_lines with (address_text := address_text).
Qed.

End MainFiles.


Section MainRuns.

Variable json_loads : str -> outcome value.
Variable format_percent : Z -> outcome str.
Variable repr_value : value -> outcome str.
Variable open_file : trace -> str -> outcome unit.
Variable write_file : trace -> str -> str -> outcome unit.
Variable close_file : trace -> str -> outcome unit.



End MainRuns.


